(** * Keyword-overlap retrieval and routing of the mini agent

    A shallow embedding of [agent.py]: the tokenizer, the corpus builder,
    the keyword search, the router-response parser and one agent turn,
    followed by the properties of these functions.

    Python values are modelled as follows.
    - [str] is a list of Unicode code points ([pystr]).
    - [set[str]] is a finite set [gset pystr].
    - a value decoded from JSON is a [json] tree; a [dict] keeps its keys
      in an association list read from the front.
    - an exception is a constructor of [PyExc]; a call that may raise
      returns [PyExc + A]. *)

From Stdlib Require Import NArith ZArith List String Ascii Permutation Sorted Lia.
From stdpp Require Import base option list sets gmap.

Import ListNotations.
Local Open Scope N_scope.

(** ** Strings *)

Definition pystr := list N.

(** A string literal of the source (ASCII only). *)
Definition lit (s : string) : pystr :=
  List.map N_of_ascii (list_ascii_of_string s).

Definition NL : N := 10.
Definition SPACE : N := 32.
Definition DQUOTE : N := 34.
Definition LBRACE : N := 123.
Definition RBRACE : N := 125.

(** [sep.join(parts)] *)
Fixpoint join (sep : pystr) (parts : list pystr) : pystr :=
  match parts with
  | [] => []
  | [p] => p
  | p :: rest => p ++ sep ++ join sep rest
  end.

(** [str(n)] for a non-negative [int]. *)
Fixpoint digits_of_uint (d : Decimal.uint) : pystr :=
  match d with
  | Decimal.Nil => []
  | Decimal.D0 r => 48 :: digits_of_uint r
  | Decimal.D1 r => 49 :: digits_of_uint r
  | Decimal.D2 r => 50 :: digits_of_uint r
  | Decimal.D3 r => 51 :: digits_of_uint r
  | Decimal.D4 r => 52 :: digits_of_uint r
  | Decimal.D5 r => 53 :: digits_of_uint r
  | Decimal.D6 r => 54 :: digits_of_uint r
  | Decimal.D7 r => 55 :: digits_of_uint r
  | Decimal.D8 r => 56 :: digits_of_uint r
  | Decimal.D9 r => 57 :: digits_of_uint r
  end.

Definition str_of_nat (n : nat) : pystr := digits_of_uint (Nat.to_uint n).

(** ** Tokenizer *)

(** The character class [[a-z0-9']] of the pattern. *)
Definition is_token_char (c : N) : bool :=
  ((97 <=? c) && (c <=? 122)) || ((48 <=? c) && (c <=? 57)) || (c =? 39).

Section Tokenizer.

(** [str.lower] on a code point outside ASCII, given the text before and
    after it (the final-sigma rule looks at the context).  The Unicode
    case table is not part of the program. *)
Variable lower_nonascii : pystr -> N -> pystr -> pystr.

Definition lower_char (before : pystr) (c : N) (after : pystr) : pystr :=
  if c <? 128 then
    if (65 <=? c) && (c <=? 90) then [c + 32] else [c]
  else lower_nonascii before c after.

Fixpoint lower_from (before s : pystr) : pystr :=
  match s with
  | [] => []
  | c :: rest => lower_char before c rest ++ lower_from (before ++ [c]) rest
  end.

(** [text.lower()] *)
Definition lower (s : pystr) : pystr := lower_from [] s.

(** [re.findall(r"[a-z0-9']+", s)]: the maximal runs of token
    characters, left to right; [cur] is the run being read. *)
Fixpoint findall_from (cur s : pystr) : list pystr :=
  match s with
  | [] => match cur with [] => [] | _ => [cur] end
  | c :: rest =>
      if is_token_char c then findall_from (cur ++ [c]) rest
      else match cur with
           | [] => findall_from [] rest
           | _ => cur :: findall_from [] rest
           end
  end.

Definition findall_tokens (s : pystr) : list pystr := findall_from [] s.

Definition _tokenize (text : pystr) : gset pystr :=
  list_to_set (findall_tokens (lower text)).

End Tokenizer.

(** ** Values decoded from JSON *)

#[local] Set Warnings "-register-all".
#[local] Unset Elimination Schemes.

Inductive json :=
| JNull
| JBool (b : bool)
| JInt (n : Z)
| JFloat (repr : pystr)
| JStr (s : pystr)
| JArr (items : list json)
| JObj (fields : list (pystr * json)).

#[local] Set Elimination Schemes.

(** [key in d] and [d[key]] for a [dict] with string keys. *)
Fixpoint dict_lookup (key : pystr) (fields : list (pystr * json)) : option json :=
  match fields with
  | [] => None
  | (k, v) :: rest => if bool_decide (k = key) then Some v else dict_lookup key rest
  end.

(** [d.get(key, default)] *)
Definition dict_get (fields : list (pystr * json)) (key : pystr) (default : json) : json :=
  match dict_lookup key fields with
  | Some v => v
  | None => default
  end.

(** ** Exceptions *)

Inductive PyExc :=
| ValueError (msg : pystr)
| KeyError (key : json)
| IndexError
| TypeError
| AttributeError
| OSError
| EOFError
| Timeout
| ConnectionError
| HTTPError (status : Z).

(** The failures of the HTTP exchange itself. *)
Definition is_transport_error (e : PyExc) : bool :=
  match e with
  | Timeout | ConnectionError | HTTPError _ => true
  | _ => false
  end.

Definition result (A : Type) : Type := PyExc + A.

Definition bind {A B} (r : result A) (k : A -> result B) : result B :=
  match r with
  | inl e => inl e
  | inr a => k a
  end.

Notation "'let?' x ':=' r 'in' k" := (bind r (fun x => k))
  (at level 10, x name, r at level 100, k at level 200).

(** ** Corpus builder *)

Record Chunk := mkChunk {
  source : pystr;
  text : pystr;
  tokens : gset pystr
}.

(** [str.isspace] of one code point, as [str.strip()] uses it. *)
Definition is_space (c : N) : bool :=
  ((9 <=? c) && (c <=? 13)) || ((28 <=? c) && (c <=? 32))
  || (c =? 133) || (c =? 160) || (c =? 5760)
  || ((8192 <=? c) && (c <=? 8202))
  || (c =? 8232) || (c =? 8233) || (c =? 8239) || (c =? 8287) || (c =? 12288).

Fixpoint lstrip (s : pystr) : pystr :=
  match s with
  | [] => []
  | c :: rest => if is_space c then lstrip rest else s
  end.

Definition rstrip (s : pystr) : pystr := rev (lstrip (rev s)).

(** [p.strip()] *)
Definition strip (s : pystr) : pystr := rstrip (lstrip s).

(** [raw.split("\n\n")]: cut at every occurrence of two newlines, left to
    right; [cur] is the piece being read. *)
Fixpoint split_blank_from (cur s : pystr) : list pystr :=
  match s with
  | [] => [cur]
  | c :: rest =>
      match rest with
      | d :: rest' =>
          if (c =? NL) && (d =? NL) then cur :: split_blank_from [] rest'
          else split_blank_from (cur ++ [c]) rest
      | [] => [cur ++ [c]]
      end
  end.

Definition split_blank (raw : pystr) : list pystr := split_blank_from [] raw.

(** Truthiness of a string. *)
Definition nonempty (s : pystr) : bool :=
  match s with [] => false | _ => true end.

(** [[p.strip() for p in raw.split("\n\n") if p.strip()]] *)
Definition paragraphs (raw : pystr) : list pystr :=
  List.map strip (List.filter (fun p => nonempty (strip p)) (split_blank raw)).

(** One entry of a directory: its name, and what
    [read_text(encoding="utf-8", errors="ignore")] gives for it. *)
Record DirEntry := mkEntry {
  name : pystr;
  read_text : result pystr
}.

(** [fnmatch] of a name against ["*.txt"]. *)
Definition is_suffix_of (suf s : pystr) : bool :=
  bool_decide (drop (length s - length suf)%nat s = suf).

Definition matches_txt (n : pystr) : bool := is_suffix_of (lit ".txt") n.

Section Corpus.

Variable lower_nonascii : pystr -> N -> pystr -> pystr.

(** The file system: the entries of the directory at a path, in the
    order the system lists them; [None] when there is no such
    directory. *)
Variable listdir : pystr -> option (list DirEntry).

(** [docs_path.glob("*.txt")] yields nothing for a missing directory. *)
Definition glob_txt (docs_dir : pystr) : list DirEntry :=
  match listdir docs_dir with
  | None => []
  | Some entries => List.filter (fun f => matches_txt (name f)) entries
  end.

Definition chunks_of_file (file_name raw : pystr) : list Chunk :=
  List.map (fun p => mkChunk file_name p (_tokenize lower_nonascii p))
           (paragraphs raw).

Fixpoint load_files (files : list DirEntry) (chunks : list Chunk)
  : result (list Chunk) :=
  match files with
  | [] => inr chunks
  | file :: rest =>
      let? raw := read_text file in
      load_files rest (chunks ++ chunks_of_file (name file) raw)
  end.

Definition load_doc_chunks (docs_dir : pystr) : result (list Chunk) :=
  load_files (glob_txt docs_dir) [].

End Corpus.

(** ** Keyword search *)

(** [l[:k]] for an [int] [k]: a negative [k] counts from the end. *)
Definition slice_to {A} (l : list A) (k : Z) : list A :=
  if (0 <=? k)%Z then take (Z.to_nat k) l
  else take (length l - Z.to_nat (- k))%nat l.

Definition Scored : Type := nat * Chunk.

(** [scored.sort(key=lambda x: x[0], reverse=True)]: entries in order of
    decreasing score, entries of equal score in their original order. *)
Fixpoint insert_desc (x : Scored) (l : list Scored) : list Scored :=
  match l with
  | [] => [x]
  | y :: l' => if (x.1 <? y.1)%nat then y :: insert_desc x l' else x :: l
  end.

Definition sort_desc (l : list Scored) : list Scored :=
  foldr insert_desc [] l.

Definition NO_RESULTS : pystr := lit "NO_RESULTS".

(** [f"[source={ch['source']} score={score}] {ch['text']}"] *)
Definition render (p : Scored) : pystr :=
  lit "[source=" ++ source p.2 ++ lit " score=" ++ str_of_nat p.1
  ++ lit "] " ++ text p.2.

Section Search.

Variable lower_nonascii : pystr -> N -> pystr -> pystr.

(** [len(q_tokens & ch["tokens"])] *)
Definition overlap (q_tokens : gset pystr) (ch : Chunk) : nat :=
  size (q_tokens ∩ tokens ch).

(** The loop that fills [scored]. *)
Fixpoint score_chunks (q_tokens : gset pystr) (chunks : list Chunk)
  : list Scored :=
  match chunks with
  | [] => []
  | ch :: rest =>
      let score := overlap q_tokens ch in
      if (0 <? score)%nat then (score, ch) :: score_chunks q_tokens rest
      else score_chunks q_tokens rest
  end.

(** The list [best] of [search_docs]. *)
Definition search_best (query : pystr) (chunks : list Chunk) (top_k : Z)
  : list Scored :=
  let q_tokens := _tokenize lower_nonascii query in
  slice_to (sort_desc (score_chunks q_tokens chunks)) top_k.

Definition search_docs (query : pystr) (chunks : list Chunk) (top_k : Z)
  : pystr :=
  match search_best query chunks top_k with
  | [] => NO_RESULTS
  | best => join [NL] (List.map render best)
  end.

End Search.

(** ** Router response *)

(** The text up to and including the last closing brace, if there is one. *)
Fixpoint through_last_close (s : pystr) : option pystr :=
  match s with
  | [] => None
  | c :: rest =>
      match through_last_close rest with
      | Some m => Some (c :: m)
      | None => if c =? RBRACE then Some [c] else None
      end
  end.

(** [re.search(r"\{.*\}", raw, re.DOTALL)]: the match starts at the first
    opening brace and, [.*] being greedy, ends at the last closing brace
    after it. *)
Fixpoint search_braces (raw : pystr) : option pystr :=
  match raw with
  | [] => None
  | c :: rest =>
      if c =? LBRACE then
        match through_last_close rest with
        | Some m => Some (c :: m)
        | None => None
        end
      else search_braces rest
  end.

Record RouterDecision := mkDecision {
  action : json;
  query : json;
  answer : json
}.

Definition SEARCH_DOCS : pystr := lit "SEARCH_DOCS".
Definition NO_SEARCH : pystr := lit "NO_SEARCH".

Section Agent.

(** [json.loads]: the decoded value, or [str(e)] of the
    [JSONDecodeError] it raises. *)
Variable json_loads : pystr -> pystr + json.

(** [repr] of a value. *)
Variable py_repr : json -> pystr.

(** [str(v)], what an f-string puts for [{v}]. *)
Definition py_str (v : json) : pystr :=
  match v with
  | JStr s => s
  | _ => py_repr v
  end.

(** [parse_router_response] of the unfinished agent. *)
Definition parse_router_response (raw : pystr) : result RouterDecision :=
  match search_braces raw with
  | None => inl (ValueError (lit "No JSON found in response:" ++ [NL] ++ raw))
  | Some span =>
      match json_loads span with
      | inl e =>
          inl (ValueError (lit "Invalid JSON: " ++ e ++ [NL]
                           ++ lit "Raw output:" ++ [NL] ++ raw))
      | inr (JObj data) =>
          inr (mkDecision (dict_get data (lit "action") (JStr []))
                          (dict_get data (lit "query") JNull)
                          (dict_get data (lit "answer") JNull))
      | inr _ => inl AttributeError
      end
  end.

(** *** The model transport *)

Record Request := mkRequest {
  url : pystr;
  headers : list (pystr * pystr);
  payload : json;
  timeout : Z
}.

(** A response: its status code and what [r.json()] gives. *)
Record Response := mkResponse {
  status_code : Z;
  json_body : result json
}.

(** The outside world the process talks to, and [requests.post] on it:
    the call raises or returns a response, and the world moves on. *)
Variable World : Type.
Variable requests_post : Request -> World -> result Response * World.

(** The state of a run: the world and what was written to the console. *)
Record Sys := mkSys {
  world : World;
  stdout : list pystr
}.

Definition M (A : Type) : Type := Sys -> result A * Sys.

Definition ret {A} (a : A) : M A := fun s => (inr a, s).
Definition raise {A} (e : PyExc) : M A := fun s => (inl e, s).
Definition lift {A} (r : result A) : M A := fun s => (r, s).

Definition bindM {A B} (m : M A) (k : A -> M B) : M B :=
  fun s =>
    match m s with
    | (inl e, s') => (inl e, s')
    | (inr a, s') => k a s'
    end.

(** [print(line)] *)
Definition print (line : pystr) : M unit :=
  fun s => (inr tt, mkSys (world s) (stdout s ++ [line ++ [NL]])).

Definition post (rq : Request) : M Response :=
  fun s =>
    let (r, w) := requests_post rq (world s) in
    (r, mkSys w (stdout s)).

End Agent.

Arguments ret {World A} a.
Arguments raise {World A} e.
Arguments lift {World A} r.
Arguments bindM {World A B} m k.
Arguments print {World} line.
Arguments mkSys {World} world stdout.
Arguments world {World} s.
Arguments stdout {World} s.

Notation "'let!' x ':=' m 'in' k" := (bindM m (fun x => k))
  (at level 10, x name, m at level 100, k at level 200).
Notation "m ';;' k" := (bindM m (fun _ => k))
  (at level 100, k at level 200, right associativity).

(** ** Prompts *)

Definition quoted (s : string) : pystr := [DQUOTE] ++ lit s ++ [DQUOTE].

Definition ROUTER_SYSTEM_PROMPT : pystr :=
  join [NL]
    [ [];
      lit "You are a router for a tiny agent.";
      lit "You can do ONE tool call: SEARCH_DOCS.";
      [];
      lit "Important context:";
      lit "- The local documents contain ONLY the user's personal travel journal";
      lit "  (cities visited, dates, places, activities).";
      lit "- The model itself does NOT know this information unless it searches.";
      [];
      lit "Routing rules (must follow):";
      [];
      lit "1) If the question is about the user's personal life or past";
      lit "   (travel, cities, places, dates, activities, where they have been),";
      lit "   you MUST choose SEARCH_DOCS.";
      [];
      lit "2) Only choose NO_SEARCH for general world knowledge";
      lit "   that does NOT depend on the user's personal history.";
      [];
      lit "Output exactly ONE line of JSON:";
      lit "- {" ++ quoted "action" ++ lit ":" ++ quoted "SEARCH_DOCS" ++ lit "," ++ quoted "query" ++ lit ":" ++ quoted "..." ++ lit "}";
      lit "- {" ++ quoted "action" ++ lit ":" ++ quoted "NO_SEARCH" ++ lit "," ++ quoted "answer" ++ lit ":" ++ quoted "..." ++ lit "}";
      [];
      lit "Do not explain your reasoning.";
      [] ].

Definition ANSWER_SYSTEM_PROMPT : pystr :=
  join [NL]
    [ [];
      lit "You are a helpful assistant answering questions about the user's personal travel journal.";
      [];
      lit "Rules:";
      lit "- Use ONLY the retrieved snippets as facts.";
      lit "- If snippets are provided:";
      lit "  - Answer in 2" ++ [226; 8364; 8220] ++ lit "5 sentences.";
      lit "  - Summarize naturally (do not copy text verbatim).";
      lit "  - Cite the journal source file at the end of sentences that use it,";
      lit "    e.g. (travel_journal.txt).";
      [];
      lit "- If the tool result is NO_RESULTS:";
      lit "  - Say clearly that this information is not found in the travel journal.";
      [];
      lit "- Do NOT invent places, dates, or activities.";
      lit "- If unsure, say you don't know based on the journal.";
      [] ].

(** ** One turn of the agent *)

(** [{"role": role, "content": content}] *)
Definition message (role : string) (content : pystr) : json :=
  JObj [(lit "role", JStr (lit role)); (lit "content", JStr content)].

(** [v[key]] for a string [key]. *)
Definition getitem_key (v : json) (key : pystr) : result json :=
  match v with
  | JObj fields =>
      match dict_lookup key fields with
      | Some x => inr x
      | None => inl (KeyError (JStr key))
      end
  | _ => inl TypeError
  end.

(** [v[0]] *)
Definition getitem_0 (v : json) : result json :=
  match v with
  | JArr (x :: _) => inr x
  | JArr [] => inl IndexError
  | JStr (c :: _) => inr (JStr [c])
  | JStr [] => inl IndexError
  | JObj _ => inl (KeyError (JInt 0))
  | _ => inl TypeError
  end.

(** [v == s] for a string [s]. *)
Definition json_eq_str (v : json) (s : pystr) : bool :=
  match v with
  | JStr t => bool_decide (t = s)
  | _ => false
  end.

(** A value used where the code needs a [str]; [exc] is what the
    operation raises on anything else. *)
Definition as_str (exc : PyExc) (v : json) : result pystr :=
  match v with
  | JStr s => inr s
  | _ => inl exc
  end.

(** [s.rstrip("/")] *)
Fixpoint lstrip_slash (s : pystr) : pystr :=
  match s with
  | [] => []
  | c :: rest => if c =? 47 then lstrip_slash rest else s
  end.

Definition rstrip_slash (s : pystr) : pystr := rev (lstrip_slash (rev s)).

(** [_tokenize(text)] for any value: [text.lower()] raises
    [AttributeError] unless [text] is a [str]. *)
Definition tokenize_value (lower_nonascii : pystr -> N -> pystr -> pystr)
    (text : json) : result (gset pystr) :=
  let? s := as_str AttributeError text in
  inr (_tokenize lower_nonascii s).

(** [search_docs(query, chunks, top_k)] for any value as [query]: its
    first statement tokenizes the query, the rest is as in
    [search_docs]. *)
Definition search_docs_value (lower_nonascii : pystr -> N -> pystr -> pystr)
    (query : json) (chunks : list Chunk) (top_k : Z) : result pystr :=
  let? q_tokens := tokenize_value lower_nonascii query in
  inr (match slice_to (sort_desc (score_chunks q_tokens chunks)) top_k with
       | [] => NO_RESULTS
       | best => join [NL] (List.map render best)
       end).

Section Turn.

Variable lower_nonascii : pystr -> N -> pystr -> pystr.
Variable json_loads : pystr -> pystr + json.
Variable py_repr : json -> pystr.
(** [str] of an exception. *)
Variable exc_str : PyExc -> pystr.
Variable World : Type.
Variable requests_post : Request -> World -> result Response * World.

Abbreviation M := (M World).
Abbreviation Sys := (Sys World).
Abbreviation post := (post World requests_post).
Abbreviation py_str := (py_str py_repr).

(** [r.raise_for_status()] *)
Definition raise_for_status (r : Response) : M unit :=
  if ((400 <=? status_code r) && (status_code r <? 600))%Z
  then raise (HTTPError (status_code r))
  else ret tt.

Definition chat (messages : list json) (config : list (pystr * json)) : M json :=
  let! api_key := lift (getitem_key (JObj config) (lit "api_key")) in
  let base_url :=
    dict_get config (lit "base_url") (JStr (lit "https://api.openai.com/v1")) in
  let model := dict_get config (lit "model") (JStr (lit "gpt-4o-mini")) in
  let! base := lift (as_str AttributeError base_url) in
  let url := rstrip_slash base ++ lit "/chat/completions" in
  let payload :=
    JObj [(lit "model", model);
          (lit "messages", JArr messages);
          (lit "temperature", JFloat (lit "0.2"))] in
  let headers :=
    [(lit "Authorization", lit "Bearer " ++ py_str api_key);
     (lit "Content-Type", lit "application/json")] in
  let! r := post (mkRequest url headers payload 60) in
  raise_for_status r ;;
  lift (let? body := json_body r in
        let? choices := getitem_key body (lit "choices") in
        let? choice := getitem_0 choices in
        let? msg := getitem_key choice (lit "message") in
        getitem_key msg (lit "content")).

Definition router_messages (user_text : pystr) : list json :=
  [message "system" ROUTER_SYSTEM_PROMPT; message "user" user_text].

Definition answer_messages (user_text tool_result : pystr) : list json :=
  [message "system" ANSWER_SYSTEM_PROMPT;
   message "user" (lit "Question: " ++ user_text ++ [NL; NL]
                   ++ lit "Retrieved:" ++ [NL] ++ tool_result)].

Definition agent_once (user_text : pystr) (chunks : list Chunk)
    (config : list (pystr * json)) : M json :=
  (* Step 1: ask the model whether to search or not *)
  let! router_out := chat (router_messages user_text) config in
  let! raw := lift (as_str TypeError router_out) in
  match search_braces raw with
  | None =>
      ret (JStr (lit "(Router error) Model did not return JSON:" ++ [NL] ++ raw))
  | Some span =>
      match json_loads span with
      | inl e =>
          ret (JStr (lit "(Router error) Invalid JSON in response: " ++ e
                     ++ [NL] ++ lit "Raw output:" ++ [NL] ++ raw))
      | inr decision =>
          print (lit "[router decision] " ++ py_str decision) ;;
          let! fields := lift (match decision with
                               | JObj fields => inr fields
                               | _ => inl AttributeError
                               end) in
          if json_eq_str (dict_get fields (lit "action") JNull) NO_SEARCH then
            ret (dict_get fields (lit "answer") (JStr (lit "(no answer)")))
          else if json_eq_str (dict_get fields (lit "action") JNull) SEARCH_DOCS then
            let query := dict_get fields (lit "query") (JStr user_text) in
            let! tool_result := lift (search_docs_value lower_nonascii query chunks 3) in
            print (lit "[tool call] search_docs(query=" ++ py_repr query ++ lit ")") ;;
            print (lit "[tool result]" ++ [NL] ++ tool_result ++ [NL]) ;;
            (* Step 2: ask the model to answer using the tool output *)
            chat (answer_messages user_text tool_result) config
          else
            ret (JStr (lit "(Router error) Unknown action: " ++ py_str decision))
      end
  end.

(** [input(prompt)] writes the prompt; the line read comes from [inputs]. *)
Definition write (text : pystr) (s : Sys) : Sys :=
  mkSys (world s) (stdout s ++ [text]).

(** The [while True] loop of [main], over the lines the console still
    has to give. *)
Fixpoint main_loop (inputs : list pystr) (chunks : list Chunk)
    (config : list (pystr * json)) (s : Sys) : result unit * Sys :=
  match inputs with
  | [] => (inl EOFError, write (lit "You: ") s)
  | line :: rest =>
      let s0 := write (lit "You: ") s in
      let user_text := strip line in
      if bool_decide (lower lower_nonascii user_text ∈ [lit "exit"; lit "quit"])
      then (inr tt, s0)
      else
        let s1 :=
          match agent_once user_text chunks config s0 with
          | (inr answer, s') =>
              (print ([NL] ++ lit "Agent: " ++ py_str answer ++ [NL]) s').2
          | (inl e, s') =>
              (print ([NL] ++ lit "ERROR: " ++ exc_str e ++ [NL]) s').2
          end in
        main_loop rest chunks config s1
  end.

End Turn.

(** ** Vocabulary of the properties *)

(** A well-formed token: not empty, made of token characters only. *)
Definition is_token (t : pystr) : Prop :=
  t ≠ [] ∧ Forall (fun c => is_token_char c = true) t.

(** A text with no white space at either end. *)
Definition trimmed (s : pystr) : Prop :=
  (∀ c, head s = Some c → is_space c = false)
  ∧ (∀ c, last s = Some c → is_space c = false).

(** The index invariant of one fragment. *)
Definition chunk_ok (lower_nonascii : pystr -> N -> pystr -> pystr)
    (ch : Chunk) : Prop :=
  tokens ch = _tokenize lower_nonascii (text ch)
  ∧ text ch ≠ []
  ∧ trimmed (text ch).

(** The fragments of positive score, each with its score, in the order
    of the corpus. *)
Definition scored_fragments (q_tokens : gset pystr) (chunks : list Chunk)
  : list Scored :=
  List.map (fun ch => (overlap q_tokens ch, ch))
           (List.filter (fun ch => (0 <? overlap q_tokens ch)%nat) chunks).

(** Scores never increase along the list. *)
Definition by_decreasing_score (l : list Scored) : Prop :=
  StronglySorted (fun a b => (b.1 <= a.1)%nat) l.

(** The entries of a ranking that have score [n]. *)
Definition with_score (n : nat) (l : list Scored) : list Scored :=
  List.filter (fun p => (p.1 =? n)%nat) l.

(** The lines of a text: the pieces between its newline characters. *)
Fixpoint lines_from (cur s : pystr) : list pystr :=
  match s with
  | [] => [cur]
  | c :: rest =>
      if c =? NL then cur :: lines_from [] rest
      else lines_from (cur ++ [c]) rest
  end.

Definition lines_of (s : pystr) : list pystr := lines_from [] s.

Definition one_line (s : pystr) : Prop := Forall (fun c => c ≠ NL) s.

(** The text has an opening brace with a closing brace somewhere after
    it. *)
Definition has_brace_span (raw : pystr) : Prop :=
  ∃ a b c, raw = a ++ [LBRACE] ++ b ++ [RBRACE] ++ c.

(** The console lines of a turn that searches with [query]. *)
Definition search_log (py_repr : json -> pystr) (decision query : json)
    (tool_result : pystr) : list pystr :=
  [ lit "[router decision] " ++ py_str py_repr decision ++ [NL];
    lit "[tool call] search_docs(query=" ++ py_repr query ++ lit ")" ++ [NL];
    lit "[tool result]" ++ [NL] ++ tool_result ++ [NL] ++ [NL] ].

(** The console line the loop of [main] writes for an exception. *)
Definition error_line (exc_str : PyExc -> pystr) (e : PyExc) : pystr :=
  [NL] ++ lit "ERROR: " ++ exc_str e ++ [NL] ++ [NL].

Section TurnVocabulary.

Variable lower_nonascii : pystr -> N -> pystr -> pystr.
Variable json_loads : pystr -> pystr + json.
Variable py_repr : json -> pystr.
Variable World : Type.
Variable requests_post : Request -> World -> result Response * World.

(** A model call of the turn that starts in [s] raises [e] and leaves
    the run in [s1]: either the router call, or, after a router answer
    that decodes to a [SEARCH_DOCS] decision, the answer call. *)
Definition model_call_fails (user_text : pystr) (chunks : list Chunk)
    (config : list (pystr * json)) (s : Sys World) (e : PyExc)
    (s1 : Sys World) : Prop :=
  chat py_repr World requests_post (router_messages user_text) config s
  = (inl e, s1)
  ∨ ∃ raw s0 span fields q,
      chat py_repr World requests_post (router_messages user_text) config s
      = (inr (JStr raw), s0)
      ∧ search_braces raw = Some span
      ∧ json_loads span = inr (JObj fields)
      ∧ dict_lookup (lit "action") fields = Some (JStr SEARCH_DOCS)
      ∧ dict_get fields (lit "query") (JStr user_text) = JStr q
      ∧ let tool_result := search_docs lower_nonascii q chunks 3 in
        chat py_repr World requests_post
             (answer_messages user_text tool_result) config
             (mkSys (world s0)
                    (stdout s0 ++ search_log py_repr (JObj fields) (JStr q) tool_result))
        = (inl e, s1).

End TurnVocabulary.

(** A text of ASCII characters only. *)
Definition is_ascii_text (s : pystr) : Prop := Forall (fun c => c < 128) s.

(** An ASCII character that ends a token: neither a letter (of either
    case), nor a digit, nor an apostrophe. *)
Definition is_separator (c : N) : Prop :=
  c < 128 ∧ is_token_char c = false ∧ ¬ (65 <= c <= 90).

(** [str.lower] on one ASCII character. *)
Definition ascii_lower (c : N) : N :=
  if (65 <=? c) && (c <=? 90) then c + 32 else c.

(** The text has a blank line: two newlines in a row. *)
Definition has_blank_line (s : pystr) : Prop :=
  ∃ a b, s = a ++ [NL; NL] ++ b.

(** The fragments of one listed file, none when it cannot be read. *)
Definition file_chunks (lower_nonascii : pystr -> N -> pystr -> pystr)
    (file : DirEntry) : list Chunk :=
  match read_text file with
  | inr raw => chunks_of_file lower_nonascii (name file) raw
  | inl _ => []
  end.

Definition readable (file : DirEntry) : Prop := ∃ raw, read_text file = inr raw.

(** [type(e).__name__]: the class of an exception, which is what an
    [except] clause tells apart. *)
Definition exc_class (e : PyExc) : string :=
  match e with
  | ValueError _ => "ValueError"
  | KeyError _ => "KeyError"
  | IndexError => "IndexError"
  | TypeError => "TypeError"
  | AttributeError => "AttributeError"
  | OSError => "OSError"
  | EOFError => "EOFError"
  | Timeout => "Timeout"
  | ConnectionError => "ConnectionError"
  | HTTPError _ => "HTTPError"
  end%string.

(** A console line that ends the loop of [main]. *)
Definition is_stop_line (lower_nonascii : pystr -> N -> pystr -> pystr)
    (line : pystr) : Prop :=
  lower lower_nonascii (strip line) ∈ [lit "exit"; lit "quit"].

(** ** Test doubles

    Stand-ins for what the program takes from outside, to run the
    definitions on concrete inputs. *)

Module Scripted.

(** A case table with the two code points outside ASCII whose lower
    case has an ASCII letter (U+0130 and the Kelvin sign); it leaves
    the others alone. *)
Definition lower_nonascii : pystr -> N -> pystr -> pystr :=
  fun _ c _ =>
    if c =? 304 then [105; 775]
    else if c =? 8490 then [107]
    else [c].

(** A world that plays back a script of transport outcomes. *)
Definition World : Type := list (result Response).

Definition requests_post (rq : Request) (w : World) : result Response * World :=
  match w with
  | [] => (inl ConnectionError, [])
  | r :: rest => (r, rest)
  end.

(** A response whose body is a completion with the given content. *)
Definition completion (content : pystr) : result Response :=
  inr (mkResponse 200
         (inr (JObj [(lit "choices",
                      JArr [JObj [(lit "message",
                                   JObj [(lit "content", JStr content)])]])]))).

Definition search_only : pystr :=
  lit "{" ++ quoted "action" ++ lit ":" ++ quoted "SEARCH_DOCS" ++ lit "}".

Definition search_tokyo : pystr :=
  lit "{" ++ quoted "action" ++ lit ":" ++ quoted "SEARCH_DOCS" ++ lit ","
  ++ quoted "query" ++ lit ":" ++ quoted "Tokyo trip" ++ lit "}".

Definition no_search_42 : pystr :=
  lit "{" ++ quoted "action" ++ lit ":" ++ quoted "NO_SEARCH" ++ lit ","
  ++ quoted "answer" ++ lit ":" ++ quoted "42" ++ lit "}".

Definition search_null : pystr :=
  lit "{" ++ quoted "action" ++ lit ":" ++ quoted "SEARCH_DOCS" ++ lit ","
  ++ quoted "query" ++ lit ":null}".

(** A decoder that knows four router answers and rejects the rest. *)
Definition json_loads (s : pystr) : pystr + json :=
  if bool_decide (s = search_only) then
    inr (JObj [(lit "action", JStr SEARCH_DOCS)])
  else if bool_decide (s = search_null) then
    inr (JObj [(lit "action", JStr SEARCH_DOCS); (lit "query", JNull)])
  else if bool_decide (s = search_tokyo) then
    inr (JObj [(lit "action", JStr SEARCH_DOCS); (lit "query", JStr (lit "Tokyo trip"))])
  else if bool_decide (s = no_search_42) then
    inr (JObj [(lit "action", JStr NO_SEARCH); (lit "answer", JStr (lit "42"))])
  else inl (lit "Expecting value: line 1 column 1 (char 0)").

Definition py_repr (v : json) : pystr :=
  match v with
  | JStr s => lit "'" ++ s ++ lit "'"
  | _ => lit "<value>"
  end.

Definition exc_str (e : PyExc) : pystr :=
  match e with
  | ValueError msg => msg
  | Timeout => lit "timed out"
  | _ => lit "<exception>"
  end.

Definition config : list (pystr * json) := [(lit "api_key", JStr (lit "sk-test"))].

Definition rome : Chunk :=
  mkChunk (lit "a.txt") (lit "Train to Rome") {[ lit "rome"; lit "train" ]}.
Definition paris : Chunk :=
  mkChunk (lit "b.txt") (lit "Paris museum") {[ lit "paris"; lit "museum" ]}.

(** A docs directory with one journal file and one file of another kind. *)
Definition journal : pystr :=
  lit "Rome" ++ [NL] ++ lit "2023" ++ [NL; NL] ++ lit "  Paris museum ".

Definition listdir (path : pystr) : option (list DirEntry) :=
  if bool_decide (path = lit "docs") then
    Some [mkEntry (lit "journal.txt") (inr journal);
          mkEntry (lit "notes.md") (inr (lit "not read"))]
  else if bool_decide (path = lit "empty") then
    Some [mkEntry (lit "notes.md") (inr (lit "not read"))]
  else None.

Definition action_dance : pystr :=
  lit "{" ++ quoted "action" ++ lit ":" ++ quoted "DANCE" ++ lit "}".

(** A decoder that also knows an answer with an action of no known kind. *)
Definition json_loads_more (s : pystr) : pystr + json :=
  if bool_decide (s = action_dance) then
    inr (JObj [(lit "action", JStr (lit "DANCE"))])
  else json_loads s.

(** A docs directory whose second journal cannot be read. *)
Definition listdir_broken (path : pystr) : option (list DirEntry) :=
  if bool_decide (path = lit "docs") then
    Some [mkEntry (lit "journal.txt") (inr journal);
          mkEntry (lit "locked.txt") (inl OSError);
          mkEntry (lit "later.txt") (inr (lit "never read"))]
  else None.

(** The program run on these stand-ins. *)
Abbreviation agent_once :=
  (agent_once lower_nonascii json_loads py_repr World requests_post).
Abbreviation main_loop :=
  (main_loop lower_nonascii json_loads py_repr exc_str World requests_post).
Abbreviation model_call_fails :=
  (model_call_fails lower_nonascii json_loads py_repr World requests_post).

End Scripted.

(** * Properties *)

(** ** Sanity checks on concrete inputs *)

Example tokenize_paris :
  _tokenize Scripted.lower_nonascii (lit "Paris, 2023!") = {[ lit "paris"; lit "2023" ]}.
Proof. vm_compute. reflexivity. Qed.

Example tokenize_empty : _tokenize Scripted.lower_nonascii [] = ∅.
Proof. reflexivity. Qed.

Example tokenize_e_acute : _tokenize Scripted.lower_nonascii [233] = ∅.
Proof. vm_compute. reflexivity. Qed.

Example tokenize_kelvin :
  _tokenize Scripted.lower_nonascii (lit "300" ++ [8490] ++ lit " it's") 
  = {[ lit "300k"; lit "it's" ]}.
Proof. vm_compute. reflexivity. Qed.

Example search_rome :
  search_docs Scripted.lower_nonascii (lit "train to rome")
    [Scripted.paris; Scripted.rome] 3
  = lit "[source=a.txt score=2] Train to Rome".
Proof. vm_compute. reflexivity. Qed.

Example search_unrelated :
  search_docs Scripted.lower_nonascii (lit "unrelated query xyz")
    [Scripted.paris; Scripted.rome] 3 = NO_RESULTS.
Proof. vm_compute. reflexivity. Qed.

Example load_docs :
  load_doc_chunks Scripted.lower_nonascii Scripted.listdir (lit "docs")
  = inr [mkChunk (lit "journal.txt") (lit "Rome" ++ [NL] ++ lit "2023")
                 {[ lit "rome"; lit "2023" ]};
         mkChunk (lit "journal.txt") (lit "Paris museum")
                 {[ lit "paris"; lit "museum" ]}].
Proof. vm_compute. reflexivity. Qed.

Example parse_tokyo :
  parse_router_response Scripted.json_loads (lit "Sure: " ++ Scripted.search_tokyo)
  = inr (mkDecision (JStr SEARCH_DOCS) (JStr (lit "Tokyo trip")) JNull).
Proof. vm_compute. reflexivity. Qed.

(** ** Tokenizer *)

Section TokenizerFacts.

Variable lower_nonascii : pystr -> N -> pystr -> pystr.

Abbreviation lower_char := (lower_char lower_nonascii).
Abbreviation lower_from := (lower_from lower_nonascii).
Abbreviation lower := (lower lower_nonascii).
Abbreviation _tokenize := (_tokenize lower_nonascii).

Lemma findall_from_tokens cur s :
  Forall (fun c => is_token_char c = true) cur →
  Forall is_token (findall_from cur s).
Proof.
  revert cur. induction s as [|c rest IH]; intros cur Hcur; simpl.
  - destruct cur; constructor; [|constructor]. split; [discriminate|assumption].
  - destruct (is_token_char c) eqn:Hc.
    + apply IH. apply Forall_app. split; [assumption|]. repeat constructor. exact Hc.
    + destruct cur as [|d cur'].
      * apply IH. constructor.
      * constructor; [split; [discriminate|assumption]|]. apply IH. constructor.
Qed.

Lemma findall_tokens_are_tokens s : Forall is_token (findall_tokens s).
Proof. apply findall_from_tokens. constructor. Qed.

(** Reading a run of token characters extends the current run. *)
Lemma findall_from_run cur t s :
  Forall (fun c => is_token_char c = true) t →
  findall_from cur (t ++ s) = findall_from (cur ++ t) s.
Proof.
  revert cur. induction t as [|c t IH]; intros cur Ht; simpl.
  - by rewrite app_nil_r.
  - inversion Ht as [|? ? Hc Ht']; subst. rewrite Hc.
    rewrite IH by assumption. by rewrite <- app_assoc.
Qed.

(** Tokens joined by single spaces are found again, in order. *)
Lemma findall_join_tokens l :
  Forall is_token l → findall_tokens (join [SPACE] l) = l.
Proof.
  unfold findall_tokens.
  induction l as [|p l IH]; intros Hl; [reflexivity|].
  inversion Hl as [|? ? [Hne Hp] Hl']; subst.
  destruct l as [|q l].
  - simpl. rewrite <- (app_nil_r p) at 1. rewrite findall_from_run by assumption.
    simpl. destruct p; [contradiction|reflexivity].
  - change (join [SPACE] (p :: q :: l)) with (p ++ [SPACE] ++ join [SPACE] (q :: l)).
    rewrite findall_from_run by assumption. simpl.
    destruct p; [contradiction|]. simpl. f_equal. apply IH. assumption.
Qed.

Lemma token_char_lower before c after :
  is_token_char c = true ∨ c = SPACE → lower_char before c after = [c].
Proof.
  unfold lower_char, is_token_char, SPACE. intros H.
  assert (c < 128 ∧ ¬ (65 <= c <= 90)) as [Hlt Hup].
  { destruct H as [H| ->]; [|lia].
    rewrite !orb_true_iff, !andb_true_iff, !N.leb_le, N.eqb_eq in H. lia. }
  apply N.ltb_lt in Hlt. rewrite Hlt.
  destruct ((65 <=? c) && (c <=? 90)) eqn:E; [|reflexivity].
  rewrite andb_true_iff, !N.leb_le in E. lia.
Qed.

Lemma lower_from_fixed before s :
  Forall (fun c => is_token_char c = true ∨ c = SPACE) s →
  lower_from before s = s.
Proof.
  revert before. induction s as [|c s IH]; intros before Hs; [reflexivity|].
  inversion Hs; subst. simpl. rewrite token_char_lower by assumption.
  simpl. f_equal. by apply IH.
Qed.

Lemma join_tokens_chars l :
  Forall is_token l →
  Forall (fun c => is_token_char c = true ∨ c = SPACE) (join [SPACE] l).
Proof.
  induction l as [|p l IH]; intros Hl; [constructor|].
  inversion Hl as [|? ? [_ Hp] Hl']; subst.
  assert (Forall (fun c => is_token_char c = true ∨ c = SPACE) p) as Hp'.
  { eapply Forall_impl; [exact Hp|]. intros; by left. }
  destruct l as [|q l]; [exact Hp'|].
  change (join [SPACE] (p :: q :: l)) with (p ++ [SPACE] ++ join [SPACE] (q :: l)).
  apply Forall_app. split; [exact Hp'|]. constructor; [by right|]. by apply IH.
Qed.

Lemma tokenize_join_tokens l :
  Forall is_token l → _tokenize (join [SPACE] l) = list_to_set l.
Proof.
  intros Hl. unfold _tokenize, lower.
  rewrite lower_from_fixed by (by apply join_tokens_chars).
  by rewrite findall_join_tokens.
Qed.

(** C4. The tokenizer is idempotent: the tokens of a text, written out
    in any order with single spaces between them and tokenized again,
    give the same set of tokens.  The order in which a set is
    enumerated is not fixed, so the statement covers every
    enumeration [l] of the set. *)
Theorem tokenize_idempotent (s : pystr) (l : list pystr) :
  l ≡ₚ elements (_tokenize s) →
  _tokenize (join [SPACE] l) = _tokenize s.
Proof.
  intros Hperm.
  assert (Forall is_token l) as Hl.
  { apply Forall_forall. intros t Ht.
    rewrite Hperm in Ht. apply elem_of_elements in Ht.
    unfold _tokenize in Ht. apply elem_of_list_to_set in Ht.
    pose proof (findall_tokens_are_tokens (lower s)) as Hall.
    rewrite Forall_forall in Hall. by apply Hall. }
  rewrite tokenize_join_tokens by assumption.
  rewrite (list_to_set_perm_L _ _ Hperm). apply list_to_set_elements_L.
Qed.

End TokenizerFacts.

Lemma tokenize_idempotent_witness :
  let s := lit "Paris, 2023! paris" in
  let l := [lit "2023"; lit "paris"] in
  l ≡ₚ elements (_tokenize Scripted.lower_nonascii s)
  ∧ _tokenize Scripted.lower_nonascii (join [SPACE] l)
    = _tokenize Scripted.lower_nonascii s.
Proof.
  assert ([lit "2023"; lit "paris"]
          ≡ₚ elements (_tokenize Scripted.lower_nonascii (lit "Paris, 2023! paris"))) as H.
  { vm_compute. apply Permutation_refl || apply perm_swap. }
  split; [exact H|].
  exact (tokenize_idempotent Scripted.lower_nonascii _ _ H).
Defined.

(** ** Corpus builder *)

Lemma lstrip_suffix s : ∃ p, s = p ++ lstrip s.
Proof.
  induction s as [|c s [p Hp]]; [by exists []|]. simpl.
  destruct (is_space c); [|by exists []].
  exists (c :: p). simpl. by f_equal.
Qed.

Lemma lstrip_head s c : head (lstrip s) = Some c → is_space c = false.
Proof.
  induction s as [|d s IH]; simpl; [discriminate|].
  destruct (is_space d) eqn:Hd; [exact IH|].
  simpl. intros [= <-]. exact Hd.
Qed.

Lemma rstrip_prefix s : ∃ q, s = rstrip s ++ q.
Proof.
  unfold rstrip. destruct (lstrip_suffix (rev s)) as [p Hp].
  exists (rev p). rewrite <- rev_app_distr, <- Hp. by rewrite rev_involutive.
Qed.

Lemma rstrip_last s c : last (rstrip s) = Some c → is_space c = false.
Proof.
  unfold rstrip. destruct (lstrip (rev s)) as [|d t] eqn:E; [discriminate|].
  simpl. rewrite last_snoc. intros [= <-].
  apply (lstrip_head (rev s)). by rewrite E.
Qed.

Lemma strip_trimmed s : trimmed (strip s).
Proof.
  unfold strip. split; intros c Hc.
  - destruct (rstrip_prefix (lstrip s)) as [q Hq].
    apply (lstrip_head s). rewrite Hq.
    destruct (rstrip (lstrip s)); [discriminate|exact Hc].
  - by apply (rstrip_last (lstrip s)).
Qed.

Lemma paragraphs_trimmed raw :
  Forall (fun p => p ≠ [] ∧ trimmed p) (paragraphs raw).
Proof.
  unfold paragraphs. apply Forall_forall. intros p Hp.
  apply list_elem_of_In, in_map_iff in Hp. destruct Hp as (x & <- & Hx).
  apply filter_In in Hx. destruct Hx as [_ Hx]. split.
  - destruct (strip x); [discriminate|discriminate].
  - apply strip_trimmed.
Qed.

Section CorpusFacts.

Variable lower_nonascii : pystr -> N -> pystr -> pystr.
Variable listdir : pystr -> option (list DirEntry).

Abbreviation load_files := (load_files lower_nonascii).
Abbreviation load_doc_chunks := (load_doc_chunks lower_nonascii listdir).
Abbreviation chunks_of_file := (chunks_of_file lower_nonascii).

Lemma chunks_of_file_ok file_name raw :
  Forall (chunk_ok lower_nonascii) (chunks_of_file file_name raw).
Proof.
  unfold chunks_of_file.
  pose proof (paragraphs_trimmed raw) as H.
  induction H as [|p ps [Hne Htrim] _ IH]; simpl; constructor; [|exact IH].
  repeat split; simpl; try assumption; apply Htrim.
Qed.

Lemma load_files_ok files : ∀ acc chunks,
  Forall (chunk_ok lower_nonascii) acc →
  load_files files acc = inr chunks →
  Forall (chunk_ok lower_nonascii) chunks.
Proof.
  induction files as [|file rest IH]; intros acc chunks Hacc; simpl.
  - intros [= <-]. exact Hacc.
  - destruct (read_text file) as [e|raw]; simpl; [discriminate|].
    apply IH. apply Forall_app. split; [exact Hacc|apply chunks_of_file_ok].
Qed.

(** C6. Every fragment the corpus builder returns satisfies the index
    invariant: its tokens are exactly the tokens of its text, and its
    text is not empty and has no white space at its start or end. *)
Theorem load_doc_chunks_invariant (docs_dir : pystr) (chunks : list Chunk) :
  load_doc_chunks docs_dir = inr chunks →
  Forall (chunk_ok lower_nonascii) chunks.
Proof.
  unfold load_doc_chunks. apply load_files_ok. constructor.
Qed.

End CorpusFacts.

Lemma load_doc_chunks_invariant_witness :
  ∃ chunks,
    load_doc_chunks Scripted.lower_nonascii Scripted.listdir (lit "docs") = inr chunks
    ∧ length chunks = 2%nat
    ∧ Forall (chunk_ok Scripted.lower_nonascii) chunks.
Proof.
  eexists. split; [vm_compute; reflexivity|]. split; [reflexivity|].
  apply (load_doc_chunks_invariant Scripted.lower_nonascii Scripted.listdir (lit "docs")).
  vm_compute. reflexivity.
Defined.

Section EmptyCorpus.

Variable lower_nonascii : pystr -> N -> pystr -> pystr.
Variable listdir : pystr -> option (list DirEntry).

Lemma slice_to_nil {A} (k : Z) : slice_to (@nil A) k = [].
Proof. unfold slice_to. destruct (0 <=? k)%Z; apply take_nil. Qed.

Lemma search_docs_nil query top_k :
  search_docs lower_nonascii query [] top_k = NO_RESULTS.
Proof. unfold search_docs, search_best. simpl. by rewrite slice_to_nil. Qed.

Lemma glob_txt_no_match entries :
  Forall (fun f => matches_txt (name f) = false) entries →
  List.filter (fun f => matches_txt (name f)) entries = [].
Proof.
  induction 1 as [|f fs Hf _ IH]; [reflexivity|]. simpl. by rewrite Hf.
Qed.

(** C5. When the documents directory does not exist, or holds no file
    whose name matches [*.txt], the corpus build returns the empty
    list and raises nothing, and every search over that list, for any
    query and any [top_k], returns the [NO_RESULTS] sentinel. *)
Theorem empty_corpus_no_results (docs_dir : pystr) :
  listdir docs_dir = None
  ∨ (∃ entries, listdir docs_dir = Some entries
                ∧ Forall (fun f => matches_txt (name f) = false) entries) →
  ∃ chunks,
    load_doc_chunks lower_nonascii listdir docs_dir = inr chunks
    ∧ chunks = []
    ∧ ∀ query top_k, search_docs lower_nonascii query chunks top_k = NO_RESULTS.
Proof.
  intros H. exists []. split; [|split; [reflexivity|apply search_docs_nil]].
  unfold load_doc_chunks, glob_txt.
  destruct H as [-> | (entries & -> & Hno)]; [reflexivity|].
  by rewrite glob_txt_no_match.
Qed.

End EmptyCorpus.

Lemma empty_corpus_no_results_witness :
  (Scripted.listdir (lit "missing") = None
   ∧ ∃ chunks,
      load_doc_chunks Scripted.lower_nonascii Scripted.listdir (lit "missing") = inr chunks
      ∧ chunks = []
      ∧ ∀ query top_k,
          search_docs Scripted.lower_nonascii query chunks top_k = NO_RESULTS)
  ∧ (∃ chunks,
      load_doc_chunks Scripted.lower_nonascii Scripted.listdir (lit "empty") = inr chunks
      ∧ chunks = []
      ∧ ∀ query top_k,
          search_docs Scripted.lower_nonascii query chunks top_k = NO_RESULTS).
Proof.
  split.
  - split; [reflexivity|].
    apply (empty_corpus_no_results Scripted.lower_nonascii Scripted.listdir (lit "missing")).
    left. reflexivity.
  - apply (empty_corpus_no_results Scripted.lower_nonascii Scripted.listdir (lit "empty")).
    right. eexists. split; [reflexivity|]. repeat constructor.
Defined.

(** ** Ranking *)

Lemma score_chunks_spec q_tokens chunks :
  score_chunks q_tokens chunks = scored_fragments q_tokens chunks.
Proof.
  unfold scored_fragments. induction chunks as [|ch rest IH]; [reflexivity|].
  simpl. destruct (0 <? overlap q_tokens ch)%nat; simpl; by rewrite IH.
Qed.

Lemma scored_fragments_positive q_tokens chunks p :
  In p (scored_fragments q_tokens chunks) →
  In p.2 chunks ∧ p.1 = overlap q_tokens p.2 ∧ (0 < p.1)%nat.
Proof.
  unfold scored_fragments. intros Hp.
  apply in_map_iff in Hp. destruct Hp as (ch & <- & Hch).
  apply filter_In in Hch. destruct Hch as [Hin Hpos]. simpl.
  apply Nat.ltb_lt in Hpos. auto.
Qed.

Lemma scored_fragments_nil q_tokens chunks :
  scored_fragments q_tokens chunks = [] ↔
  ∀ ch, In ch chunks → overlap q_tokens ch = 0%nat.
Proof.
  unfold scored_fragments. induction chunks as [|ch rest IH]; simpl.
  - split; [intros _ ? []|reflexivity].
  - destruct (0 <? overlap q_tokens ch)%nat eqn:E; simpl.
    + split; [discriminate|]. intros H.
      apply Nat.ltb_lt in E. specialize (H ch (or_introl eq_refl)). lia.
    + rewrite IH. apply Nat.ltb_ge in E. split.
      * intros H c [<-|Hc]; [lia|by apply H].
      * intros H c Hc. apply H. by right.
Qed.

Lemma insert_desc_perm x l : insert_desc x l ≡ₚ x :: l.
Proof.
  induction l as [|y l IH]; [reflexivity|]. simpl.
  destruct (x.1 <? y.1)%nat; [|reflexivity].
  rewrite IH. apply perm_swap.
Qed.

Lemma sort_desc_perm l : sort_desc l ≡ₚ l.
Proof.
  induction l as [|x l IH]; [reflexivity|]. simpl.
  rewrite insert_desc_perm. by rewrite IH.
Qed.

Lemma insert_desc_sorted x l :
  by_decreasing_score l → by_decreasing_score (insert_desc x l).
Proof.
  unfold by_decreasing_score.
  induction 1 as [|y l Hl IH Hy]; simpl; [repeat constructor|].
  destruct (x.1 <? y.1)%nat eqn:E.
  - apply Nat.ltb_lt in E. constructor; [exact IH|].
    apply Forall_forall. intros z Hz.
    apply list_elem_of_In in Hz.
    apply (Permutation_in _ (insert_desc_perm x l)) in Hz.
    destruct Hz as [<-|Hz]; [lia|].
    rewrite Forall_forall in Hy. apply Hy. by apply list_elem_of_In.
  - apply Nat.ltb_ge in E. constructor; [by constructor|].
    constructor; [exact E|].
    eapply Forall_impl; [exact Hy|]. simpl. intros z Hz. lia.
Qed.

Lemma sort_desc_sorted l : by_decreasing_score (sort_desc l).
Proof.
  induction l as [|x l IH]; simpl; [constructor|by apply insert_desc_sorted].
Qed.

(** Inserting an entry keeps, for every score, the entries of that score
    in the order they had, the new entry first among its equals. *)
Lemma insert_desc_stable n x l :
  with_score n (insert_desc x l) = with_score n (x :: l).
Proof.
  unfold with_score. induction l as [|y l IH]; [reflexivity|]. simpl.
  destruct (x.1 <? y.1)%nat eqn:E; [|reflexivity].
  apply Nat.ltb_lt in E. simpl. rewrite IH. simpl.
  destruct (x.1 =? n)%nat eqn:Ex; [|reflexivity].
  apply Nat.eqb_eq in Ex.
  destruct (y.1 =? n)%nat eqn:Ey; [|reflexivity].
  apply Nat.eqb_eq in Ey. lia.
Qed.

Lemma sort_desc_stable n l : with_score n (sort_desc l) = with_score n l.
Proof.
  induction l as [|x l IH]; [reflexivity|]. simpl.
  rewrite insert_desc_stable. unfold with_score in *. simpl. by rewrite IH.
Qed.

Lemma by_decreasing_score_app l1 l2 :
  by_decreasing_score (l1 ++ l2) → by_decreasing_score l1.
Proof.
  unfold by_decreasing_score. induction l1 as [|x l1 IH]; intros Hs; [constructor|].
  simpl in Hs. apply StronglySorted_inv in Hs. destruct Hs as [Hl Hx].
  constructor; [by apply IH|]. apply Forall_app in Hx. apply Hx.
Qed.

Lemma by_decreasing_score_take m l :
  by_decreasing_score l → by_decreasing_score (take m l).
Proof.
  intros Hs. apply (by_decreasing_score_app _ (drop m l)). by rewrite take_drop.
Qed.

Lemma slice_to_take {A} (l : list A) (k : Z) : ∃ m, slice_to l k = take m l.
Proof. unfold slice_to. destruct (0 <=? k)%Z; eauto. Qed.

Lemma slice_to_nonneg {A} (l : list A) (k : Z) :
  (0 <= k)%Z → slice_to l k = take (Z.to_nat k) l.
Proof. intros H. unfold slice_to. apply Z.leb_le in H. by rewrite H. Qed.

Lemma with_score_take n m l : with_score n (take m l) `prefix_of` with_score n l.
Proof.
  exists (with_score n (drop m l)). unfold with_score.
  rewrite <- List.filter_app. by rewrite take_drop.
Qed.

Lemma with_score_scored_fragments n q_tokens chunks :
  List.map snd (with_score n (scored_fragments q_tokens chunks))
  = if (0 <? n)%nat
    then List.filter (fun ch => (overlap q_tokens ch =? n)%nat) chunks
    else [].
Proof.
  unfold with_score, scored_fragments.
  induction chunks as [|ch rest IH]; simpl; [by destruct (0 <? n)%nat|].
  destruct (0 <? overlap q_tokens ch)%nat eqn:E; simpl.
  - destruct (overlap q_tokens ch =? n)%nat eqn:En; simpl; rewrite IH.
    + apply Nat.eqb_eq in En. rewrite <- En, E. reflexivity.
    + reflexivity.
  - rewrite IH. destruct (0 <? n)%nat eqn:Hn; [|reflexivity].
    destruct (overlap q_tokens ch =? n)%nat eqn:En; [|reflexivity].
    apply Nat.eqb_eq in En. congruence.
Qed.

Lemma prefix_map {A B} (f : A → B) (l1 l2 : list A) :
  l1 `prefix_of` l2 → List.map f l1 `prefix_of` List.map f l2.
Proof. intros [k ->]. exists (List.map f k). apply List.map_app. Qed.

(** ** Rendering *)

Lemma digits_of_uint_one_line d : one_line (digits_of_uint d).
Proof.
  unfold one_line. induction d; simpl; constructor; try assumption;
    unfold NL; lia.
Qed.

Lemma render_one_line p :
  one_line (source p.2) → one_line (text p.2) → one_line (render p).
Proof.
  unfold one_line, render. intros Hs Ht.
  repeat (apply Forall_app; split); try assumption.
  - vm_compute. repeat constructor; discriminate.
  - vm_compute. repeat constructor; discriminate.
  - apply digits_of_uint_one_line.
  - vm_compute. repeat constructor; discriminate.
Qed.

Lemma render_head p : head (render p) = Some 91.
Proof. reflexivity. Qed.

Lemma join_head sep p rest c :
  head p = Some c → head (join sep (p :: rest)) = Some c.
Proof.
  destruct p as [|d p]; [discriminate|]. intros H.
  destruct rest; exact H.
Qed.

Lemma lines_from_run cur t s :
  one_line t → lines_from cur (t ++ s) = lines_from (cur ++ t) s.
Proof.
  revert cur. induction t as [|c t IH]; intros cur Ht; simpl.
  - by rewrite app_nil_r.
  - inversion Ht as [|? ? Hc Ht']; subst.
    apply N.eqb_neq in Hc. rewrite Hc.
    rewrite IH by assumption. by rewrite <- app_assoc.
Qed.

(** A text made by joining one-line pieces with newlines has exactly
    those pieces as its lines. *)
Lemma lines_of_join l :
  l ≠ [] → Forall one_line l → lines_of (join [NL] l) = l.
Proof.
  unfold lines_of. induction l as [|p l IH]; intros Hne Hl; [contradiction|].
  inversion Hl as [|? ? Hp Hl']; subst.
  destruct l as [|q l].
  - simpl. rewrite <- (app_nil_r p) at 1. by rewrite lines_from_run.
  - change (join [NL] (p :: q :: l)) with (p ++ [NL] ++ join [NL] (q :: l)).
    rewrite lines_from_run by assumption. simpl. f_equal.
    apply IH; [discriminate|assumption].
Qed.

(** ** Keyword search *)

Section SearchFacts.

Variable lower_nonascii : pystr -> N -> pystr -> pystr.

Abbreviation tokenize := (_tokenize lower_nonascii).
Abbreviation search_best := (search_best lower_nonascii).
Abbreviation search_docs := (search_docs lower_nonascii).

Lemma search_docs_rendered query chunks top_k :
  search_best query chunks top_k ≠ [] →
  search_docs query chunks top_k
  = join [NL] (List.map render (search_best query chunks top_k)).
Proof.
  unfold search_docs.
  destruct (search_best query chunks top_k); [contradiction|reflexivity].
Qed.

Lemma search_docs_sentinel query chunks top_k :
  search_docs query chunks top_k = NO_RESULTS ↔
  search_best query chunks top_k = [].
Proof.
  split.
  - intros H. destruct (search_best query chunks top_k) as [|p l] eqn:E;
      [reflexivity|].
    rewrite search_docs_rendered in H by (rewrite E; discriminate).
    rewrite E in H. apply (f_equal head) in H.
    simpl List.map in H. rewrite (join_head _ _ _ 91) in H by apply render_head.
    discriminate.
  - intros H. unfold search_docs. by rewrite H.
Qed.

(** C1, amended. For every query, fragment list and [top_k >= 1]:
    the ranking holds exactly the fragments whose score
    [|tokenize(query) ∩ tokens|] is positive, each with that score,
    in order of non-increasing score; [search_docs] keeps the first
    [top_k] of it, so at most [top_k] entries; and it returns the
    [NO_RESULTS] sentinel exactly when no fragment has a positive
    score. *)
Theorem search_docs_ranking (query : pystr) (chunks : list Chunk) (top_k : Z) :
  (1 <= top_k)%Z →
  let q_tokens := tokenize query in
  let best := search_best query chunks top_k in
  (∃ ranked,
      ranked ≡ₚ scored_fragments q_tokens chunks
      ∧ by_decreasing_score ranked
      ∧ best = take (Z.to_nat top_k) ranked)
  ∧ (∀ p, In p best →
          In p.2 chunks ∧ p.1 = overlap q_tokens p.2 ∧ (0 < p.1)%nat)
  ∧ by_decreasing_score best
  ∧ (Z.of_nat (length best) <= top_k)%Z
  ∧ (search_docs query chunks top_k = NO_RESULTS ↔
     ∀ ch, In ch chunks → overlap q_tokens ch = 0%nat).
Proof.
  intros Hk q_tokens best.
  assert (best = take (Z.to_nat top_k) (sort_desc (scored_fragments q_tokens chunks)))
    as Hbest.
  { unfold best, search_best. rewrite score_chunks_spec.
    apply slice_to_nonneg. lia. }
  assert (∀ p, In p best → In p (scored_fragments q_tokens chunks)) as Hsub.
  { intros p Hp. rewrite Hbest in Hp.
    apply (Permutation_in _ (sort_desc_perm _)).
    apply list_elem_of_In. eapply subseteq_take. apply list_elem_of_In. exact Hp. }
  split; [|split; [|split; [|split]]].
  - exists (sort_desc (scored_fragments q_tokens chunks)).
    split; [apply sort_desc_perm|]. split; [apply sort_desc_sorted|exact Hbest].
  - intros p Hp. apply scored_fragments_positive. by apply Hsub.
  - rewrite Hbest. apply by_decreasing_score_take, sort_desc_sorted.
  - rewrite Hbest, length_take. lia.
  - rewrite search_docs_sentinel. fold best. rewrite Hbest.
    rewrite <- scored_fragments_nil. split.
    + intros H.
      pose proof (sort_desc_perm (scored_fragments q_tokens chunks)) as Hperm.
      destruct (sort_desc (scored_fragments q_tokens chunks)) as [|p l].
      * by apply Permutation.Permutation_nil.
      * destruct (Z.to_nat top_k) eqn:Ek; [lia|discriminate].
    + intros ->. apply take_nil.
Qed.

(** C2. Ties keep the corpus order: for every score [n], the
    fragments of the result that have score [n], in the order of the
    result, are the first fragments of the corpus that have score
    [n], in the order of the corpus.  So two fragments of equal score
    appear in the result in the order in which they were inserted in
    the corpus. *)
Theorem search_docs_stable (query : pystr) (chunks : list Chunk) (top_k : Z)
    (n : nat) :
  List.map snd (with_score n (search_best query chunks top_k))
  `prefix_of`
  List.filter (fun ch => (overlap (tokenize query) ch =? n)%nat) chunks.
Proof.
  unfold search_best. rewrite score_chunks_spec.
  destruct (slice_to_take (sort_desc (scored_fragments (tokenize query) chunks)) top_k)
    as [m ->].
  pose proof (with_score_take n m (sort_desc (scored_fragments (tokenize query) chunks)))
    as Hpre.
  rewrite sort_desc_stable in Hpre.
  apply (prefix_map snd) in Hpre.
  rewrite with_score_scored_fragments in Hpre.
  destruct (0 <? n)%nat; [exact Hpre|].
  apply prefix_nil_inv in Hpre. rewrite Hpre. apply prefix_nil.
Qed.

(** C3, amended. Each kept pair is rendered as the entry
    [[source=<source> score=<score>] <text>], the text verbatim and in
    full, and the entries are joined by newlines.  When the sources
    and texts of the kept fragments contain no newline, the lines of
    the returned string are exactly the rendered pairs, one line for
    each pair. *)
Theorem search_docs_entries (query : pystr) (chunks : list Chunk) (top_k : Z) :
  let best := search_best query chunks top_k in
  best ≠ [] →
  search_docs query chunks top_k = join [NL] (List.map render best)
  ∧ (∀ p, In p best →
          render p = lit "[source=" ++ source p.2 ++ lit " score="
                     ++ str_of_nat p.1 ++ lit "] " ++ text p.2)
  ∧ (Forall (fun p => one_line (source p.2) ∧ one_line (text p.2)) best →
     lines_of (search_docs query chunks top_k) = List.map render best).
Proof.
  intros best Hne. split; [by apply search_docs_rendered|].
  split; [reflexivity|].
  intros Hl. rewrite search_docs_rendered by assumption. fold best.
  apply lines_of_join.
  - destruct best; [contradiction|discriminate].
  - clear Hne. induction Hl as [|p l [Hs Ht] _ IH]; simpl; constructor;
      [by apply render_one_line|exact IH].
Qed.

(** C10. When at least one fragment has a positive score (and
    [top_k >= 1], as for the default [top_k = 3]), the string returned
    by [search_docs] begins with ['['] and so is never the sentinel
    [NO_RESULTS]. *)
Theorem search_docs_not_sentinel (query : pystr) (chunks : list Chunk)
    (top_k : Z) :
  (1 <= top_k)%Z →
  (∃ ch, In ch chunks ∧ (0 < overlap (tokenize query) ch)%nat) →
  head (search_docs query chunks top_k) = Some 91
  ∧ search_docs query chunks top_k ≠ NO_RESULTS.
Proof.
  intros Hk (ch & Hin & Hpos).
  assert (search_best query chunks top_k ≠ []) as Hne.
  { unfold search_best. rewrite score_chunks_spec.
    rewrite slice_to_nonneg by lia.
    pose proof (sort_desc_perm (scored_fragments (tokenize query) chunks)) as Hperm.
    destruct (sort_desc (scored_fragments (tokenize query) chunks)) as [|p l].
    - exfalso. apply Permutation.Permutation_nil in Hperm.
      rewrite scored_fragments_nil in Hperm. specialize (Hperm ch Hin). lia.
    - destruct (Z.to_nat top_k) eqn:Ek; [lia|discriminate]. }
  assert (head (search_docs query chunks top_k) = Some 91) as Hhd.
  { rewrite search_docs_rendered by assumption.
    destruct (search_best query chunks top_k) as [|p l]; [contradiction|].
    simpl List.map. apply join_head, render_head. }
  split; [exact Hhd|]. intros Heq. rewrite Heq in Hhd. discriminate.
Qed.

End SearchFacts.

Lemma search_docs_ranking_witness :
  let q := lit "train to rome" in
  let chunks := [Scripted.paris; Scripted.rome] in
  (1 <= 3)%Z
  ∧ by_decreasing_score (search_best Scripted.lower_nonascii q chunks 3)
  ∧ (Z.of_nat (length (search_best Scripted.lower_nonascii q chunks 3)) <= 3)%Z
  ∧ (search_docs Scripted.lower_nonascii q chunks 3 = NO_RESULTS ↔
     ∀ ch, In ch chunks →
           overlap (_tokenize Scripted.lower_nonascii q) ch = 0%nat).
Proof.
  intros q chunks. split; [lia|].
  destruct (search_docs_ranking Scripted.lower_nonascii q chunks 3)
    as (_ & _ & Hsorted & Hlen & Hsentinel); [lia|].
  split; [exact Hsorted|]. split; [exact Hlen|exact Hsentinel].
Defined.

(** C1 as stated fails for [top_k <= 0].  With [top_k = 0] a fragment of
    score 1 is dropped and the sentinel is returned although a fragment
    has a positive score; with [top_k = -1] and two matching fragments
    one entry is returned, which is more than [top_k]. *)
Lemma search_docs_top_k_counterexample :
  let q := lit "rome" in
  overlap (_tokenize Scripted.lower_nonascii q) Scripted.rome = 1%nat
  ∧ search_docs Scripted.lower_nonascii q [Scripted.rome] 0 = NO_RESULTS
  ∧ (-1 < Z.of_nat (length (search_best Scripted.lower_nonascii q
                              [Scripted.rome; Scripted.rome] (-1))))%Z.
Proof. vm_compute. repeat split; reflexivity. Qed.

Lemma search_docs_entries_witness :
  let q := lit "train to rome" in
  let chunks := [Scripted.paris; Scripted.rome] in
  search_best Scripted.lower_nonascii q chunks 3 ≠ []
  ∧ lines_of (search_docs Scripted.lower_nonascii q chunks 3)
    = [lit "[source=a.txt score=2] Train to Rome"].
Proof.
  intros q chunks.
  assert (search_best Scripted.lower_nonascii q chunks 3 ≠ []) as Hne.
  { vm_compute. discriminate. }
  split; [exact Hne|].
  destruct (search_docs_entries Scripted.lower_nonascii q chunks 3 Hne)
    as (_ & _ & Hlines).
  rewrite Hlines; [vm_compute; reflexivity|].
  vm_compute. repeat constructor; discriminate.
Defined.

(** C3 as stated fails for a text with a newline in it, which the corpus
    builder produces from a paragraph of two lines: the single kept pair
    takes two lines of the returned string. *)
Lemma search_docs_multiline_counterexample :
  let chunks :=
    chunks_of_file Scripted.lower_nonascii (lit "journal.txt")
                   (lit "Rome" ++ [NL] ++ lit "2023") in
  let q := lit "rome" in
  length (search_best Scripted.lower_nonascii q chunks 3) = 1%nat
  ∧ search_docs Scripted.lower_nonascii q chunks 3
    = lit "[source=journal.txt score=1] Rome" ++ [NL] ++ lit "2023"
  ∧ length (lines_of (search_docs Scripted.lower_nonascii q chunks 3)) = 2%nat.
Proof. vm_compute. repeat split; reflexivity. Qed.

Lemma search_docs_not_sentinel_witness :
  let q := lit "train to rome" in
  let chunks := [Scripted.paris; Scripted.rome] in
  (1 <= 3)%Z
  ∧ (∃ ch, In ch chunks
           ∧ (0 < overlap (_tokenize Scripted.lower_nonascii q) ch)%nat)
  ∧ head (search_docs Scripted.lower_nonascii q chunks 3) = Some 91
  ∧ search_docs Scripted.lower_nonascii q chunks 3 ≠ NO_RESULTS.
Proof.
  intros q chunks.
  assert (∃ ch, In ch chunks
                ∧ (0 < overlap (_tokenize Scripted.lower_nonascii q) ch)%nat) as Hex.
  { exists Scripted.rome. split; [right; left; reflexivity|].
    vm_compute. lia. }
  split; [lia|]. split; [exact Hex|].
  apply (search_docs_not_sentinel Scripted.lower_nonascii q chunks 3); [lia|exact Hex].
Defined.

(** ** Router response *)

Lemma through_last_close_some s :
  In RBRACE s → is_Some (through_last_close s).
Proof.
  induction s as [|c rest IH]; intros Hin; [destruct Hin|]. simpl.
  destruct (through_last_close rest) as [m|] eqn:E; [by eexists|].
  destruct Hin as [->|Hin]; [by eexists|].
  destruct (IH Hin) as [m Hm]. discriminate.
Qed.

Lemma through_last_close_inv s m :
  through_last_close s = Some m →
  ∃ b c, m = b ++ [RBRACE] ∧ s = m ++ c ∧ ¬ In RBRACE c.
Proof.
  revert m. induction s as [|d rest IH]; intros m; simpl; [discriminate|].
  destruct (through_last_close rest) as [m'|] eqn:E.
  - intros [= <-]. destruct (IH m' eq_refl) as (b & c & -> & Hrest & Hc).
    exists (d :: b), c. repeat split; [by rewrite Hrest at 1|exact Hc].
  - destruct (d =? RBRACE) eqn:Hd; [|discriminate].
    intros [= <-]. apply N.eqb_eq in Hd. subst d.
    exists [], rest. repeat split.
    intros Hin. destruct (through_last_close_some rest Hin) as [? ?]. congruence.
Qed.

(** What [search_braces] finds runs from the first opening brace to the
    last closing brace. *)
Lemma search_braces_inv raw span :
  search_braces raw = Some span →
  ∃ a b c, raw = a ++ span ++ c ∧ span = LBRACE :: b ++ [RBRACE]
           ∧ ¬ In LBRACE a ∧ ¬ In RBRACE c.
Proof.
  induction raw as [|d rest IH]; simpl; [discriminate|].
  destruct (d =? LBRACE) eqn:Hd.
  - apply N.eqb_eq in Hd. subst d.
    destruct (through_last_close rest) as [m|] eqn:E; [|discriminate].
    intros [= <-]. destruct (through_last_close_inv rest m E) as (b & c & -> & Hrest & Hc).
    exists [], b, c. repeat split; [simpl; by rewrite Hrest at 1| |exact Hc].
    intros [].
  - intros H. destruct (IH H) as (a & b & c & -> & Hspan & Ha & Hc).
    exists (d :: a), b, c. repeat split; try assumption.
    intros [Heq|Hin]; [|by apply Ha].
    apply N.eqb_neq in Hd. congruence.
Qed.

Lemma search_braces_some a b c :
  is_Some (search_braces (a ++ [LBRACE] ++ b ++ [RBRACE] ++ c)).
Proof.
  assert (∀ pre, is_Some (through_last_close (pre ++ b ++ [RBRACE] ++ c))) as Hclose.
  { intros pre. apply through_last_close_some.
    apply in_or_app. right. apply in_or_app. right. by left. }
  induction a as [|d a IH]; simpl.
  - destruct (Hclose []) as [m Hm]. simpl in Hm. rewrite Hm. by eexists.
  - destruct (d =? LBRACE); [|exact IH].
    destruct (Hclose (a ++ [LBRACE])) as [m Hm].
    rewrite <- app_assoc in Hm. simpl in Hm. rewrite Hm. by eexists.
Qed.

Lemma search_braces_none raw :
  search_braces raw = None ↔ ¬ has_brace_span raw.
Proof.
  split.
  - intros Hnone (a & b & c & ->).
    destruct (search_braces_some a b c) as [span Hspan]. congruence.
  - intros Hno. destruct (search_braces raw) as [span|] eqn:E; [|reflexivity].
    exfalso. apply Hno.
    destruct (search_braces_inv raw span E) as (a & b & c & -> & -> & _).
    exists a, b, c. simpl. by rewrite <- app_assoc.
Qed.

(** ** One turn of the agent *)

(** Called with a string, [search_docs] is the search for that string. *)
Lemma search_docs_value_str lower_nonascii q chunks top_k :
  search_docs_value lower_nonascii (JStr q) chunks top_k
  = inr (search_docs lower_nonascii q chunks top_k).
Proof. reflexivity. Qed.

Section TurnFacts.

Variable lower_nonascii : pystr -> N -> pystr -> pystr.
Variable json_loads : pystr -> pystr + json.
Variable py_repr : json -> pystr.
Variable exc_str : PyExc -> pystr.
Variable World : Type.
Variable requests_post : Request -> World -> result Response * World.

Abbreviation chat := (chat py_repr World requests_post).
Abbreviation agent_once :=
  (agent_once lower_nonascii json_loads py_repr World requests_post).
Abbreviation main_loop :=
  (main_loop lower_nonascii json_loads py_repr exc_str World requests_post).
Abbreviation search_docs := (search_docs lower_nonascii).

Abbreviation search_log := (search_log py_repr).
Abbreviation model_call_fails :=
  (model_call_fails lower_nonascii json_loads py_repr World requests_post).

Lemma agent_once_router_raises user_text chunks config s e s1 :
  chat (router_messages user_text) config s = (inl e, s1) →
  agent_once user_text chunks config s = (inl e, s1).
Proof.
  intros Hchat. unfold agent_once, bindM. by rewrite Hchat.
Qed.

(** A turn whose router answer decodes to a [SEARCH_DOCS] decision
    with the string [q] as the resolved query is the answer call on
    the result of searching for [q]. *)
Lemma agent_once_search user_text chunks config s raw s1 span fields q :
  chat (router_messages user_text) config s = (inr (JStr raw), s1) →
  search_braces raw = Some span →
  json_loads span = inr (JObj fields) →
  dict_lookup (lit "action") fields = Some (JStr SEARCH_DOCS) →
  dict_get fields (lit "query") (JStr user_text) = JStr q →
  let tool_result := search_docs q chunks 3 in
  agent_once user_text chunks config s
  = chat (answer_messages user_text tool_result) config
      (mkSys (world s1)
             (stdout s1 ++ search_log (JObj fields) (JStr q) tool_result)).
Proof.
  intros Hchat Hspan Hjson Haction Hquery tool_result.
  unfold agent_once, bindM at 1. rewrite Hchat.
  unfold lift at 1, as_str at 1, bindM at 1. rewrite Hspan, Hjson.
  unfold bindM at 1, print at 1. unfold bindM at 1, lift at 1.
  unfold dict_get at 1. rewrite Haction.
  change (json_eq_str (JStr SEARCH_DOCS) NO_SEARCH) with false.
  change (json_eq_str (JStr SEARCH_DOCS) SEARCH_DOCS) with true.
  cbv iota. unfold dict_get at 1. rewrite Haction.
  change (json_eq_str (JStr SEARCH_DOCS) SEARCH_DOCS) with true.
  cbv iota. rewrite Hquery, search_docs_value_str.
  unfold bindM at 1, lift at 1.
  unfold bindM at 1, print at 1. unfold bindM at 1, print at 1.
  cbn [world stdout]. unfold search_log. fold tool_result.
  rewrite <- !app_assoc. reflexivity.
Qed.

(** The loop of [main] catches what a turn raises, writes it to the
    console and goes on with the next line. *)
Lemma main_loop_catches line rest chunks config s e s1 :
  lower lower_nonascii (strip line) ∉ [lit "exit"; lit "quit"] →
  agent_once (strip line) chunks config (write World (lit "You: ") s) = (inl e, s1) →
  main_loop (line :: rest) chunks config s
  = main_loop rest chunks config
      (mkSys (world s1) (stdout s1 ++ [error_line exc_str e])).
Proof.
  intros Hgo Hturn. simpl. rewrite bool_decide_eq_false_2 by exact Hgo.
  rewrite Hturn. unfold error_line, print. simpl.
  by rewrite <- !app_assoc.
Qed.

(** X25. A failure of the transport (a timeout, a connection error) is
    what [chat] raises, for a configuration that has an API key and a
    string as base URL. *)
Lemma chat_post_raises messages config s api_key base e w :
  dict_lookup (lit "api_key") config = Some api_key →
  dict_get config (lit "base_url") (JStr (lit "https://api.openai.com/v1")) = JStr base →
  (∀ rq, requests_post rq (world s) = (inl e, w)) →
  chat messages config s = (inl e, mkSys w (stdout s)).
Proof.
  intros Hkey Hbase Hpost.
  unfold chat, bindM, lift, getitem_key, post. rewrite Hkey, Hbase.
  simpl. by rewrite Hpost.
Qed.

(** X26. A response with a status from 400 to 599 makes [chat] raise
    [HTTPError] with that status; the body of the response is not
    looked at. *)
Lemma chat_http_error messages config s api_key base r w :
  dict_lookup (lit "api_key") config = Some api_key →
  dict_get config (lit "base_url") (JStr (lit "https://api.openai.com/v1")) = JStr base →
  (∀ rq, requests_post rq (world s) = (inr r, w)) →
  (400 <= status_code r < 600)%Z →
  chat messages config s = (inl (HTTPError (status_code r)), mkSys w (stdout s)).
Proof.
  intros Hkey Hbase Hpost Hstatus.
  unfold chat, bindM, lift, getitem_key, post, raise_for_status.
  rewrite Hkey, Hbase. simpl. rewrite Hpost.
  assert (((400 <=? status_code r) && (status_code r <? 600))%Z = true) as ->.
  { apply andb_true_iff. split; [apply Z.leb_le|apply Z.ltb_lt]; lia. }
  reflexivity.
Qed.

(** A [SEARCH_DOCS] decision whose query makes [search_docs] raise: the
    exception leaves the turn, with only the decision logged. *)
Lemma agent_once_search_raises user_text chunks config s raw s1 span fields e :
  chat (router_messages user_text) config s = (inr (JStr raw), s1) →
  search_braces raw = Some span →
  json_loads span = inr (JObj fields) →
  dict_lookup (lit "action") fields = Some (JStr SEARCH_DOCS) →
  search_docs_value lower_nonascii
    (dict_get fields (lit "query") (JStr user_text)) chunks 3 = inl e →
  agent_once user_text chunks config s
  = (inl e,
     mkSys (world s1)
           (stdout s1 ++ [lit "[router decision] " ++ py_str py_repr (JObj fields) ++ [NL]])).
Proof.
  intros Hchat Hspan Hjson Haction Hquery.
  unfold agent_once, bindM at 1. rewrite Hchat.
  unfold lift at 1, as_str at 1, bindM at 1. rewrite Hspan, Hjson.
  unfold bindM at 1, print at 1. unfold bindM at 1, lift at 1.
  unfold dict_get at 1. rewrite Haction.
  change (json_eq_str (JStr SEARCH_DOCS) NO_SEARCH) with false.
  cbv iota. unfold dict_get at 1. rewrite Haction.
  change (json_eq_str (JStr SEARCH_DOCS) SEARCH_DOCS) with true.
  cbv iota. unfold bindM at 1, lift at 1. rewrite Hquery.
  by rewrite <- !app_assoc.
Qed.

(** X27. The two router errors of the finished agent.  A router answer
    without a brace-delimited span, or with a span the decoder rejects,
    ends the turn with a "(Router error)" message that quotes the raw
    answer as its result: nothing is raised, nothing is logged and no
    second call is made. *)
Lemma agent_once_router_errors user_text chunks config s raw s1 :
  chat (router_messages user_text) config s = (inr (JStr raw), s1) →
  (search_braces raw = None →
   agent_once user_text chunks config s
   = (inr (JStr (lit "(Router error) Model did not return JSON:" ++ [NL] ++ raw)), s1))
  ∧ (∀ span e,
       search_braces raw = Some span → json_loads span = inl e →
       agent_once user_text chunks config s
       = (inr (JStr (lit "(Router error) Invalid JSON in response: " ++ e
                     ++ [NL] ++ lit "Raw output:" ++ [NL] ++ raw)), s1)).
Proof.
  intros Hchat. split.
  - intros Hspan. unfold agent_once, bindM at 1. rewrite Hchat.
    unfold lift at 1, as_str at 1, bindM at 1. by rewrite Hspan.
  - intros span e Hspan Hjson. unfold agent_once, bindM at 1. rewrite Hchat.
    unfold lift at 1, as_str at 1, bindM at 1. by rewrite Hspan, Hjson.
Qed.

(** X28. When the router answer decodes to an object whose action is
    [SEARCH_DOCS] and which has no ["query"] field, [search_docs] is
    called with the user's text: the turn logs the tool call with that
    text and is the answer call on [search_docs user_text chunks 3]. *)
Theorem missing_query_falls_back_to_user_text
    (user_text : pystr) (chunks : list Chunk) (config : list (pystr * json))
    (s s1 : Sys World) (raw span : pystr) (fields : list (pystr * json)) :
  chat (router_messages user_text) config s = (inr (JStr raw), s1) →
  search_braces raw = Some span →
  json_loads span = inr (JObj fields) →
  dict_lookup (lit "action") fields = Some (JStr SEARCH_DOCS) →
  dict_lookup (lit "query") fields = None →
  let tool_result := search_docs user_text chunks 3 in
  search_docs_value lower_nonascii
    (dict_get fields (lit "query") (JStr user_text)) chunks 3 = inr tool_result
  ∧ agent_once user_text chunks config s
    = chat (answer_messages user_text tool_result) config
        (mkSys (world s1)
               (stdout s1 ++ search_log (JObj fields) (JStr user_text) tool_result)).
Proof.
  intros Hchat Hspan Hjson Haction Hquery tool_result.
  assert (dict_get fields (lit "query") (JStr user_text) = JStr user_text) as Hget.
  { unfold dict_get. by rewrite Hquery. }
  split; [by rewrite Hget|].
  by apply (agent_once_search user_text chunks config s raw s1 span fields user_text).
Qed.

(** C9, amended. A transport failure of a model call of the turn is
    not caught by [agent_once]: it leaves [agent_once] as the
    exception raised.  The loop of [main] catches it, writes
    [ERROR: <message>] to the console as the outcome of that turn, and
    goes on to read the next line. *)
Theorem transport_error_reaches_loop
    (user_text : pystr) (chunks : list Chunk) (config : list (pystr * json))
    (s s1 : Sys World) (e : PyExc) :
  is_transport_error e = true →
  model_call_fails user_text chunks config s e s1 →
  agent_once user_text chunks config s = (inl e, s1)
  ∧ ∀ line rest s_prev,
      strip line = user_text →
      lower lower_nonascii user_text ∉ [lit "exit"; lit "quit"] →
      write World (lit "You: ") s_prev = s →
      main_loop (line :: rest) chunks config s_prev
      = main_loop rest chunks config
          (mkSys (world s1) (stdout s1 ++ [error_line exc_str e])).
Proof.
  intros _ Hfail.
  assert (agent_once user_text chunks config s = (inl e, s1)) as Hturn.
  { destruct Hfail as [Hrouter|(raw & s0 & span & fields & q & H1 & H2 & H3 & H4 & H5 & H6)].
    - by apply agent_once_router_raises.
    - rewrite (agent_once_search user_text chunks config s raw s0 span fields q)
        by assumption.
      exact H6. }
  split; [exact Hturn|].
  intros line rest s_prev <- Hgo <-. apply main_loop_catches; assumption.
Qed.

End TurnFacts.

Section RouterFailures.

Variable lower_nonascii : pystr -> N -> pystr -> pystr.
Variable json_loads : pystr -> pystr + json.
Variable py_repr : json -> pystr.
Variable World : Type.
Variable requests_post : Request -> World -> result Response * World.

Abbreviation parse_router_response := (parse_router_response json_loads).
Abbreviation chat := (chat py_repr World requests_post).
Abbreviation agent_once :=
  (agent_once lower_nonascii json_loads py_repr World requests_post).

(** C7, amended. Parsing the router response fails with one class of
    exception, [ValueError], in two cases that differ by their message
    only.  The message is "No JSON found in response: ..." exactly when
    the response has no opening brace followed by a closing brace; it
    is "Invalid JSON: ...", with the decoder's message, exactly when a
    brace-delimited span is found and the decoder rejects it.  The two
    errors are of the same class and never have the same message.  The
    finished [agent_once] raises nothing in these two cases: it ends
    the turn with the result "(Router error) Model did not return
    JSON: ..." or "(Router error) Invalid JSON in response: ...". *)
Theorem parse_router_response_failures (raw : pystr) :
  let format_error raw :=
    ValueError (lit "No JSON found in response:" ++ [NL] ++ raw) in
  let parse_error e raw :=
    ValueError (lit "Invalid JSON: " ++ e ++ [NL] ++ lit "Raw output:" ++ [NL] ++ raw) in
  (parse_router_response raw = inl (format_error raw) ↔ ¬ has_brace_span raw)
  ∧ (∀ e, parse_router_response raw = inl (parse_error e raw) ↔
          ∃ span, search_braces raw = Some span ∧ json_loads span = inl e)
  ∧ (∀ e raw1 raw2,
       exc_class (format_error raw1) = exc_class (parse_error e raw2)
       ∧ format_error raw1 ≠ parse_error e raw2)
  ∧ (∀ exc, parse_router_response raw = inl exc →
            exc_class exc = "ValueError"%string ∨ exc = AttributeError)
  ∧ (∀ user_text chunks config s s1,
       chat (router_messages user_text) config s = (inr (JStr raw), s1) →
       (¬ has_brace_span raw →
        agent_once user_text chunks config s
        = (inr (JStr (lit "(Router error) Model did not return JSON:" ++ [NL] ++ raw)),
           s1))
       ∧ (∀ span e,
            search_braces raw = Some span → json_loads span = inl e →
            agent_once user_text chunks config s
            = (inr (JStr (lit "(Router error) Invalid JSON in response: " ++ e
                          ++ [NL] ++ lit "Raw output:" ++ [NL] ++ raw)),
               s1))).
Proof.
  intros format_error parse_error.
  assert (∀ e raw1 raw2, format_error raw1 ≠ parse_error e raw2) as Hdistinct.
  { intros e raw1 raw2. unfold format_error, parse_error. intros H.
    apply (f_equal (fun x => match x with ValueError m => head m | _ => None end)) in H.
    discriminate H. }
  split; [|split; [|split; [|split]]].
  - rewrite <- search_braces_none. unfold parse_router_response.
    destruct (search_braces raw) as [span|]; [|by split].
    split; [|discriminate]. intros H. exfalso.
    destruct (json_loads span) as [e|[]]; discriminate.
  - intros e. unfold parse_router_response.
    destruct (search_braces raw) as [span|].
    + split.
      * intros H. exists span. split; [reflexivity|].
        destruct (json_loads span) as [e'|[]]; try discriminate.
        assert (lit "Invalid JSON: " ++ e' ++ [NL] ++ lit "Raw output:" ++ [NL] ++ raw
                = lit "Invalid JSON: " ++ e ++ [NL] ++ lit "Raw output:" ++ [NL] ++ raw)
          as Hm by (unfold parse_error in H; congruence).
        apply app_inv_head, app_inv_tail in Hm. by subst.
      * intros (span' & [= <-] & ->). reflexivity.
    + split.
      * discriminate.
      * intros (span & ? & _). discriminate.
  - intros e raw1 raw2. split; [reflexivity|apply Hdistinct].
  - intros exc. unfold parse_router_response.
    destruct (search_braces raw) as [span|].
    + destruct (json_loads span) as [e|[]]; intros [= <-]; auto.
    + intros [= <-]. by left.
  - intros user_text chunks config s s1 Hchat. split.
    + intros Hno. apply search_braces_none in Hno.
      unfold agent_once, bindM at 1. rewrite Hchat.
      unfold lift at 1, as_str at 1, bindM at 1. by rewrite Hno.
    + intros span e Hspan Hjson. unfold agent_once, bindM at 1. rewrite Hchat.
      unfold lift at 1, as_str at 1, bindM at 1. by rewrite Hspan, Hjson.
Qed.

End RouterFailures.

(** C7 as stated fails: the response without a span and the response
    with a span that does not decode make [parse_router_response] raise
    exceptions of one and the same class, [ValueError]; there is no
    second kind of error for the caller to catch. *)
Lemma router_failures_one_class_counterexample :
  let no_span := lit "no json here" in
  let bad_span := lit "{oops}" in
  let format_error :=
    ValueError (lit "No JSON found in response:" ++ [NL] ++ no_span) in
  let parse_error :=
    ValueError (lit "Invalid JSON: Expecting value: line 1 column 1 (char 0)"
                ++ [NL] ++ lit "Raw output:" ++ [NL] ++ bad_span) in
  parse_router_response Scripted.json_loads no_span = inl format_error
  ∧ parse_router_response Scripted.json_loads bad_span = inl parse_error
  ∧ exc_class format_error = "ValueError"%string
  ∧ exc_class parse_error = "ValueError"%string.
Proof. vm_compute. repeat split; reflexivity. Qed.

Lemma parse_router_response_failures_witness :
  let bad_span := lit "{oops}" in
  let e := lit "Expecting value: line 1 column 1 (char 0)" in
  let s := mkSys [Scripted.completion bad_span; Scripted.completion (lit "never asked")] [] in
  let s1 := mkSys [Scripted.completion (lit "never asked")] [] in
  (search_braces bad_span = Some bad_span ∧ Scripted.json_loads bad_span = inl e)
  ∧ parse_router_response Scripted.json_loads bad_span
    = inl (ValueError (lit "Invalid JSON: " ++ e ++ [NL] ++ lit "Raw output:" ++ [NL]
                       ++ bad_span))
  ∧ Scripted.agent_once (lit "hello") [Scripted.rome] Scripted.config s
    = (inr (JStr (lit "(Router error) Invalid JSON in response: " ++ e
                  ++ [NL] ++ lit "Raw output:" ++ [NL] ++ bad_span)), s1).
Proof.
  intros bad_span e s s1.
  assert (search_braces bad_span = Some bad_span) as Hspan by (vm_compute; reflexivity).
  assert (Scripted.json_loads bad_span = inl e) as Hjson by (vm_compute; reflexivity).
  destruct (parse_router_response_failures
              Scripted.lower_nonascii Scripted.json_loads Scripted.py_repr
              Scripted.World Scripted.requests_post bad_span)
    as (_ & Hparse & _ & _ & Hturn).
  split; [by split|]. split.
  - apply Hparse. exists bad_span. by split.
  - destruct (Hturn (lit "hello") [Scripted.rome] Scripted.config s s1) as [_ Hbad].
    + vm_compute. reflexivity.
    + exact (Hbad bad_span e Hspan Hjson).
Defined.

Example router_answer_without_json :
  Scripted.agent_once (lit "What is 6 x 7?") [Scripted.paris; Scripted.rome]
    Scripted.config (mkSys [Scripted.completion (lit "no json here")] [])
  = (inr (JStr (lit "(Router error) Model did not return JSON:" ++ [NL]
                ++ lit "no json here")),
     mkSys [] []).
Proof. vm_compute. reflexivity. Qed.

Example direct_answer :
  Scripted.agent_once (lit "What is 6 x 7?") [Scripted.paris; Scripted.rome]
    Scripted.config (mkSys [Scripted.completion Scripted.no_search_42] [])
  = (inr (JStr (lit "42")),
     mkSys [] [lit "[router decision] <value>" ++ [NL]]).
Proof. vm_compute. reflexivity. Qed.

Example search_with_query :
  Scripted.agent_once (lit "Where did I go?") [Scripted.paris; Scripted.rome]
    Scripted.config
    (mkSys [Scripted.completion Scripted.search_tokyo;
            Scripted.completion (lit "Not in the journal.")] [])
  = (inr (JStr (lit "Not in the journal.")),
     mkSys [] (search_log Scripted.py_repr
                 (JObj [(lit "action", JStr SEARCH_DOCS);
                        (lit "query", JStr (lit "Tokyo trip"))])
                 (JStr (lit "Tokyo trip")) NO_RESULTS)).
Proof. vm_compute. reflexivity. Qed.

Lemma missing_query_falls_back_to_user_text_witness :
  let user_text := lit "train to rome" in
  let chunks := [Scripted.paris; Scripted.rome] in
  let reply := lit "You took the train to Rome (a.txt)." in
  let s := mkSys [Scripted.completion (lit "Sure. " ++ Scripted.search_only);
                  Scripted.completion reply] [] in
  let decision := JObj [(lit "action", JStr SEARCH_DOCS)] in
  dict_lookup (lit "query") [(lit "action", JStr SEARCH_DOCS)] = None
  ∧ Scripted.agent_once user_text chunks Scripted.config s
    = (inr (JStr reply),
       mkSys []
         (search_log Scripted.py_repr decision (JStr user_text)
            (lit "[source=a.txt score=2] Train to Rome"))).
Proof.
  intros user_text chunks reply s decision. split; [reflexivity|].
  destruct (missing_query_falls_back_to_user_text
              Scripted.lower_nonascii Scripted.json_loads Scripted.py_repr
              Scripted.World Scripted.requests_post
              user_text chunks Scripted.config s
              (mkSys [Scripted.completion reply] [])
              (lit "Sure. " ++ Scripted.search_only) Scripted.search_only
              [(lit "action", JStr SEARCH_DOCS)])
    as [_ Hturn].
  - vm_compute. reflexivity.
  - vm_compute. reflexivity.
  - vm_compute. reflexivity.
  - vm_compute. reflexivity.
  - reflexivity.
  - rewrite Hturn. vm_compute. reflexivity.
Defined.

(** C8. The router answer [{"action":"SEARCH_DOCS","query":null}] has a
    ["query"] field, so there is no fall-back to the user's text:
    [search_docs] is called with [None] as its query.  It raises
    [AttributeError] at [text.lower()], and the exception leaves
    [agent_once] with only the decision logged and no answer call
    made. *)
Theorem null_query_reaches_search_docs :
  let user_text := lit "Where did I go?" in
  let chunks := [Scripted.paris; Scripted.rome] in
  let fields := [(lit "action", JStr SEARCH_DOCS); (lit "query", JNull)] in
  Scripted.json_loads Scripted.search_null = inr (JObj fields)
  ∧ dict_get fields (lit "query") (JStr user_text) = JNull
  ∧ search_docs_value Scripted.lower_nonascii JNull chunks 3 = inl AttributeError
  ∧ Scripted.agent_once user_text chunks Scripted.config
      (mkSys [Scripted.completion Scripted.search_null;
              Scripted.completion (lit "never asked")] [])
    = (inl AttributeError,
       mkSys [Scripted.completion (lit "never asked")]
             [lit "[router decision] <value>" ++ [NL]]).
Proof. vm_compute. repeat split; reflexivity. Qed.

(** C9 as stated fails: when the router call times out, [agent_once]
    does not return a string, it raises the timeout. *)
Lemma agent_once_raises_counterexample :
  Scripted.agent_once (lit "train to rome") [Scripted.paris; Scripted.rome]
    Scripted.config (mkSys [inl Timeout] [])
  = (inl Timeout, mkSys [] []).
Proof. vm_compute. reflexivity. Qed.

Lemma transport_error_reaches_loop_witness :
  let user_text := lit "train to rome" in
  let chunks := [Scripted.paris; Scripted.rome] in
  let s := mkSys [inl Timeout] [lit "You: "] in
  let s1 := mkSys [] [lit "You: "] in
  is_transport_error Timeout = true
  ∧ Scripted.model_call_fails user_text chunks Scripted.config s Timeout s1
  ∧ Scripted.agent_once user_text chunks Scripted.config s = (inl Timeout, s1)
  ∧ Scripted.main_loop [lit " train to rome "; lit "quit"] chunks Scripted.config
      (mkSys [inl Timeout] [])
    = (inr tt,
       mkSys [] [lit "You: "; error_line Scripted.exc_str Timeout; lit "You: "]).
Proof.
  intros user_text chunks s s1.
  assert (Scripted.model_call_fails user_text chunks Scripted.config s Timeout s1) as Hfail.
  { left. vm_compute. reflexivity. }
  destruct (transport_error_reaches_loop
              Scripted.lower_nonascii Scripted.json_loads Scripted.py_repr
              Scripted.exc_str Scripted.World Scripted.requests_post
              user_text chunks Scripted.config s s1 Timeout eq_refl Hfail)
    as [Hturn Hloop].
  split; [reflexivity|]. split; [exact Hfail|]. split; [exact Hturn|].
  rewrite (Hloop (lit " train to rome ") [lit "quit"] (mkSys [inl Timeout] [])).
  - vm_compute. reflexivity.
  - vm_compute. reflexivity.
  - vm_compute. intros H. repeat (apply elem_of_cons in H as [H|H]; [discriminate|]).
    by apply elem_of_nil in H.
  - vm_compute. reflexivity.
Defined.

(** The answer call fails with HTTP status 500 after a search: the same
    path to the loop. *)
Example answer_call_http_error :
  let user_text := lit "train to rome" in
  let chunks := [Scripted.paris; Scripted.rome] in
  let s := mkSys [Scripted.completion Scripted.search_only;
                  inr (mkResponse 500 (inl (ValueError [])))] [] in
  ∃ s1, Scripted.model_call_fails user_text chunks Scripted.config s (HTTPError 500) s1
        ∧ Scripted.agent_once user_text chunks Scripted.config s = (inl (HTTPError 500), s1).
Proof.
  intros user_text chunks s. eexists. split.
  - right. exists Scripted.search_only, (mkSys [inr (mkResponse 500 (inl (ValueError [])))] []),
      Scripted.search_only, [(lit "action", JStr SEARCH_DOCS)], user_text.
    repeat split; vm_compute; reflexivity.
  - vm_compute. reflexivity.
Qed.

(** * Further properties *)

(** ** Tokenizer *)

Section TokenizerMore.

Variable lower_nonascii : pystr -> N -> pystr -> pystr.

Abbreviation lower := (lower lower_nonascii).
Abbreviation tokenize := (_tokenize lower_nonascii).

(** On ASCII text [str.lower] works character by character. *)
Lemma lower_from_ascii before s :
  is_ascii_text s → lower_from lower_nonascii before s = List.map ascii_lower s.
Proof.
  revert before. induction s as [|c s IH]; intros before Hs; [reflexivity|].
  inversion Hs as [|? ? Hc Hs']; subst. simpl.
  rewrite IH by assumption. unfold lower_char, ascii_lower.
  apply N.ltb_lt in Hc. rewrite Hc.
  by destruct ((65 <=? c) && (c <=? 90)).
Qed.

Lemma lower_ascii s : is_ascii_text s → lower s = List.map ascii_lower s.
Proof. apply lower_from_ascii. Qed.

Lemma ascii_lower_ascii s : is_ascii_text s → is_ascii_text (List.map ascii_lower s).
Proof.
  unfold is_ascii_text. induction 1 as [|c s Hc _ IH]; simpl; constructor; [|exact IH].
  unfold ascii_lower. destruct ((65 <=? c) && (c <=? 90)) eqn:E; [|exact Hc].
  apply andb_true_iff in E. destruct E as [_ E]. apply N.leb_le in E. lia.
Qed.

Lemma ascii_lower_idem c : ascii_lower (ascii_lower c) = ascii_lower c.
Proof.
  unfold ascii_lower. destruct ((65 <=? c) && (c <=? 90)) eqn:E; [|by rewrite E].
  apply andb_true_iff in E. destruct E as [E1 E2].
  apply N.leb_le in E1, E2.
  destruct ((65 <=? c + 32) && (c + 32 <=? 90)) eqn:E'; [|reflexivity].
  apply andb_true_iff in E'. destruct E' as [_ E']. apply N.leb_le in E'. lia.
Qed.

Lemma ascii_lower_separator c : is_separator c → ascii_lower c = c.
Proof.
  intros (_ & _ & Hup). unfold ascii_lower.
  destruct ((65 <=? c) && (c <=? 90)) eqn:E; [|reflexivity].
  apply andb_true_iff in E. destruct E as [E1 E2].
  apply N.leb_le in E1, E2. lia.
Qed.

(** A character that is not a token character closes the run being read
    and starts afresh. *)
Lemma findall_from_split cur x c y :
  is_token_char c = false →
  findall_from cur (x ++ c :: y) = findall_from cur x ++ findall_from [] y.
Proof.
  intros Hc. revert cur. induction x as [|d x IH]; intros cur; simpl.
  - rewrite Hc. by destruct cur.
  - destruct (is_token_char d); [apply IH|].
    destruct cur; simpl; by rewrite IH.
Qed.


(** X1. Every token of every text is well formed: it is not empty and
    holds only lower-case ASCII letters, digits and apostrophes. *)
Theorem tokens_well_formed (s t : pystr) :
  t ∈ tokenize s → is_token t.
Proof.
  unfold _tokenize. intros Ht. apply elem_of_list_to_set in Ht.
  pose proof (findall_tokens_are_tokens (lower s)) as Hall.
  rewrite Forall_forall in Hall. by apply Hall.
Qed.

Lemma tokenize_separated (a b : pystr) (c : N) :
  is_ascii_text a → is_ascii_text b → is_separator c →
  tokenize (a ++ [c] ++ b) = tokenize a ∪ tokenize b.
Proof.
  intros Ha Hb Hc.
  assert (is_ascii_text (a ++ [c] ++ b)) as Hall.
  { apply Forall_app. split; [exact Ha|]. constructor; [apply Hc|exact Hb]. }
  unfold _tokenize. rewrite !lower_ascii by assumption.
  rewrite !List.map_app. simpl List.map.
  rewrite (ascii_lower_separator c Hc).
  unfold findall_tokens. simpl.
  rewrite findall_from_split by apply Hc.
  apply list_to_set_app_L.
Qed.

(** X2. Two ASCII texts put together with a separator between them have
    the tokens of the one and the tokens of the other: no token runs
    across the separator and none is lost. *)
Theorem tokenize_concat (a b : pystr) (c : N) :
  is_ascii_text a → is_ascii_text b → is_separator c →
  tokenize (a ++ [c] ++ b) = tokenize a ∪ tokenize b.
Proof. apply tokenize_separated. Qed.

(** X3. The tokenizer ignores letter case: an ASCII text and its
    lower-case form have the same tokens. *)
Theorem tokenize_lower (s : pystr) :
  is_ascii_text s → tokenize (lower s) = tokenize s.
Proof.
  intros Hs. unfold _tokenize. f_equal. f_equal.
  rewrite (lower_ascii s Hs).
  rewrite lower_ascii by (by apply ascii_lower_ascii).
  rewrite List.map_map. apply List.map_ext. apply ascii_lower_idem.
Qed.


End TokenizerMore.

Lemma tokens_well_formed_witness :
  lit "paris" ∈ _tokenize Scripted.lower_nonascii (lit "Paris, 2023!")
  ∧ is_token (lit "paris").
Proof.
  assert (lit "paris" ∈ _tokenize Scripted.lower_nonascii (lit "Paris, 2023!")) as H.
  { rewrite tokenize_paris. set_solver. }
  split; [exact H|].
  exact (tokens_well_formed Scripted.lower_nonascii _ _ H).
Defined.

Lemma tokenize_concat_witness :
  let a := lit "Train to" in
  let b := lit "Rome!" in
  is_ascii_text a ∧ is_ascii_text b ∧ is_separator SPACE
  ∧ _tokenize Scripted.lower_nonascii (a ++ [SPACE] ++ b)
    = _tokenize Scripted.lower_nonascii a ∪ _tokenize Scripted.lower_nonascii b.
Proof.
  intros a b.
  assert (is_ascii_text a) as Ha by (vm_compute; repeat constructor).
  assert (is_ascii_text b) as Hb by (vm_compute; repeat constructor).
  assert (is_separator SPACE) as Hc.
  { unfold is_separator, SPACE. split; [lia|]. split; [reflexivity|lia]. }
  split; [exact Ha|]. split; [exact Hb|]. split; [exact Hc|].
  exact (tokenize_concat Scripted.lower_nonascii a b SPACE Ha Hb Hc).
Defined.

Lemma tokenize_lower_witness :
  let s := lit "Train to ROME" in
  is_ascii_text s
  ∧ _tokenize Scripted.lower_nonascii (lower Scripted.lower_nonascii s)
    = _tokenize Scripted.lower_nonascii s.
Proof.
  intros s.
  assert (is_ascii_text s) as Hs by (vm_compute; repeat constructor).
  split; [exact Hs|].
  exact (tokenize_lower Scripted.lower_nonascii s Hs).
Defined.

(** ** Keyword search *)

Lemma score_chunks_app q_tokens c1 c2 :
  score_chunks q_tokens (c1 ++ c2)
  = score_chunks q_tokens c1 ++ score_chunks q_tokens c2.
Proof.
  induction c1 as [|ch c1 IH]; [reflexivity|]. simpl.
  destruct (0 <? overlap q_tokens ch)%nat; simpl; by rewrite IH.
Qed.

Lemma scored_fragments_in q_tokens chunks ch :
  In ch chunks → (0 < overlap q_tokens ch)%nat →
  In (overlap q_tokens ch, ch) (scored_fragments q_tokens chunks).
Proof.
  intros Hin Hpos. unfold scored_fragments.
  apply in_map_iff. exists ch. split; [reflexivity|].
  apply filter_In. split; [exact Hin|]. by apply Nat.ltb_lt.
Qed.

Section SearchMore.

Variable lower_nonascii : pystr -> N -> pystr -> pystr.

Abbreviation tokenize := (_tokenize lower_nonascii).
Abbreviation search_best := (search_best lower_nonascii).
Abbreviation search_docs := (search_docs lower_nonascii).

Lemma search_best_in_scored query chunks top_k p :
  In p (search_best query chunks top_k) →
  In p (scored_fragments (tokenize query) chunks).
Proof.
  unfold search_best.
  rewrite score_chunks_spec.
  destruct (slice_to_take (sort_desc (scored_fragments (tokenize query) chunks)) top_k)
    as [m ->].
  intros Hp. apply (Permutation_in _ (sort_desc_perm _)).
  apply list_elem_of_In. eapply subseteq_take. apply list_elem_of_In. exact Hp.
Qed.

(** X5. A query without any token finds nothing: whatever the fragments
    and whatever [top_k], the result is the [NO_RESULTS] sentinel. *)
Theorem search_docs_empty_query (query : pystr) (chunks : list Chunk) (top_k : Z) :
  tokenize query = ∅ →
  search_docs query chunks top_k = NO_RESULTS.
Proof.
  intros Hq. apply search_docs_sentinel.
  unfold search_best. rewrite score_chunks_spec, Hq.
  replace (scored_fragments ∅ chunks) with (@nil Scored).
  - simpl. apply slice_to_nil.
  - symmetry. apply scored_fragments_nil. intros ch _.
    unfold overlap. rewrite (left_absorb_L ∅ (∩)). apply size_empty.
Qed.

(** X6. The score of a kept fragment is at most the number of distinct
    tokens of the query and at most the number of tokens of the
    fragment. *)
Theorem search_score_bounds (query : pystr) (chunks : list Chunk) (top_k : Z)
    (p : Scored) :
  In p (search_best query chunks top_k) →
  (p.1 <= size (tokenize query))%nat ∧ (p.1 <= size (tokens p.2))%nat.
Proof.
  intros Hp. apply search_best_in_scored in Hp.
  apply scored_fragments_positive in Hp. destruct Hp as (_ & -> & _).
  unfold overlap. split; apply subseteq_size;
    [apply intersection_subseteq_l|apply intersection_subseteq_r].
Qed.

(** X7. How many entries come back.  With [top_k >= 0] it is the
    smaller of [top_k] and the number of fragments of positive score;
    with a negative [top_k] the last [-top_k] entries of the ranking are
    left out, so it is that number less [-top_k], or none. *)
Theorem search_best_length (query : pystr) (chunks : list Chunk) (top_k : Z) :
  let matching :=
    length (List.filter (fun ch => (0 <? overlap (tokenize query) ch)%nat) chunks) in
  length (search_best query chunks top_k)
  = if (0 <=? top_k)%Z then Nat.min (Z.to_nat top_k) matching
    else (matching - Z.to_nat (- top_k))%nat.
Proof.
  intros matching.
  assert (length (sort_desc (score_chunks (tokenize query) chunks)) = matching) as Hlen.
  { rewrite (Permutation_length (sort_desc_perm _)), score_chunks_spec.
    unfold scored_fragments. apply List.length_map. }
  unfold search_best, slice_to.
  destruct (0 <=? top_k)%Z; rewrite length_take, Hlen; lia.
Qed.

(** X8. The first entry of a result is a best match: no fragment of the
    corpus has a higher score. *)
Theorem search_best_head_is_max (query : pystr) (chunks : list Chunk) (top_k : Z)
    (p : Scored) (rest : list Scored) :
  search_best query chunks top_k = p :: rest →
  ∀ ch, In ch chunks → (overlap (tokenize query) ch <= p.1)%nat.
Proof.
  unfold search_best. rewrite score_chunks_spec.
  destruct (slice_to_take (sort_desc (scored_fragments (tokenize query) chunks)) top_k)
    as [m ->].
  intros Hbest ch Hin.
  destruct (Nat.eq_dec (overlap (tokenize query) ch) 0%nat) as [->|Hpos]; [lia|].
  assert (In (overlap (tokenize query) ch, ch)
             (sort_desc (scored_fragments (tokenize query) chunks))) as Hch.
  { apply (Permutation_in _ (Permutation_sym (sort_desc_perm _))).
    apply scored_fragments_in; [exact Hin|lia]. }
  pose proof (sort_desc_sorted (scored_fragments (tokenize query) chunks)) as Hs.
  destruct (sort_desc (scored_fragments (tokenize query) chunks)) as [|x l];
    [destruct Hch|].
  destruct m; [discriminate|]. simpl in Hbest. injection Hbest as -> _.
  apply StronglySorted_inv in Hs. destruct Hs as [_ Hall].
  destruct Hch as [->|Hch]; [simpl; lia|].
  rewrite Forall_forall in Hall.
  apply (Hall (overlap (tokenize query) ch, ch)). by apply list_elem_of_In.
Qed.

(** X9. A fragment that shares no token with the query changes nothing:
    the result is the same with it or without it, wherever it stands in
    the corpus. *)
Theorem search_docs_ignores_unrelated (query : pystr) (c1 c2 : list Chunk)
    (ch : Chunk) (top_k : Z) :
  overlap (tokenize query) ch = 0%nat →
  search_docs query (c1 ++ ch :: c2) top_k = search_docs query (c1 ++ c2) top_k.
Proof.
  intros Hzero. unfold search_docs.
  unfold search_best. rewrite !score_chunks_app. simpl. by rewrite Hzero.
Qed.

(** X10. The order of the words of a query does not matter: two ASCII
    texts joined by a separator give the same result in either order. *)
Theorem search_docs_word_order (a b : pystr) (c : N) (chunks : list Chunk)
    (top_k : Z) :
  is_ascii_text a → is_ascii_text b → is_separator c →
  search_docs (a ++ [c] ++ b) chunks top_k = search_docs (b ++ [c] ++ a) chunks top_k.
Proof.
  intros Ha Hb Hc. unfold search_docs, search_best.
  rewrite !tokenize_separated by assumption.
  by rewrite (comm_L (∪) (tokenize a)).
Qed.

End SearchMore.

Lemma search_docs_empty_query_witness :
  _tokenize Scripted.lower_nonascii (lit "?! ...") = ∅
  ∧ search_docs Scripted.lower_nonascii (lit "?! ...")
      [Scripted.paris; Scripted.rome] 3 = NO_RESULTS.
Proof.
  assert (_tokenize Scripted.lower_nonascii (lit "?! ...") = ∅) as H
    by (vm_compute; reflexivity).
  split; [exact H|].
  exact (search_docs_empty_query Scripted.lower_nonascii _ _ 3 H).
Defined.

Lemma search_score_bounds_witness :
  let q := lit "train to rome" in
  let p := (2%nat, Scripted.rome) in
  In p (search_best Scripted.lower_nonascii q [Scripted.paris; Scripted.rome] 3)
  ∧ (p.1 <= size (_tokenize Scripted.lower_nonascii q))%nat
  ∧ (p.1 <= size (tokens p.2))%nat.
Proof.
  intros q p.
  assert (In p (search_best Scripted.lower_nonascii q [Scripted.paris; Scripted.rome] 3))
    as H by (vm_compute; left; reflexivity).
  split; [exact H|].
  exact (search_score_bounds Scripted.lower_nonascii q _ 3 p H).
Defined.

Lemma search_best_head_is_max_witness :
  let q := lit "train to rome" in
  let chunks := [Scripted.paris; Scripted.rome] in
  search_best Scripted.lower_nonascii q chunks 3 = [(2%nat, Scripted.rome)]
  ∧ ∀ ch, In ch chunks →
          (overlap (_tokenize Scripted.lower_nonascii q) ch <= 2)%nat.
Proof.
  intros q chunks.
  assert (search_best Scripted.lower_nonascii q chunks 3 = [(2%nat, Scripted.rome)])
    as H by (vm_compute; reflexivity).
  split; [exact H|].
  exact (search_best_head_is_max Scripted.lower_nonascii q chunks 3 _ _ H).
Defined.

Lemma search_docs_ignores_unrelated_witness :
  let q := lit "train to rome" in
  overlap (_tokenize Scripted.lower_nonascii q) Scripted.paris = 0%nat
  ∧ search_docs Scripted.lower_nonascii q ([Scripted.rome] ++ Scripted.paris :: []) 3
    = search_docs Scripted.lower_nonascii q ([Scripted.rome] ++ []) 3.
Proof.
  intros q.
  assert (overlap (_tokenize Scripted.lower_nonascii q) Scripted.paris = 0%nat) as H
    by (vm_compute; reflexivity).
  split; [exact H|].
  exact (search_docs_ignores_unrelated Scripted.lower_nonascii q _ _ _ 3 H).
Defined.

Lemma search_docs_word_order_witness :
  let a := lit "Rome" in
  let b := lit "train" in
  let chunks := [Scripted.paris; Scripted.rome] in
  is_ascii_text a ∧ is_ascii_text b ∧ is_separator SPACE
  ∧ search_docs Scripted.lower_nonascii (a ++ [SPACE] ++ b) chunks 3
    = search_docs Scripted.lower_nonascii (b ++ [SPACE] ++ a) chunks 3.
Proof.
  intros a b chunks.
  assert (is_ascii_text a) as Ha by (vm_compute; repeat constructor).
  assert (is_ascii_text b) as Hb by (vm_compute; repeat constructor).
  assert (is_separator SPACE) as Hc.
  { unfold is_separator, SPACE. split; [lia|]. split; [reflexivity|lia]. }
  split; [exact Ha|]. split; [exact Hb|]. split; [exact Hc|].
  exact (search_docs_word_order Scripted.lower_nonascii a b SPACE chunks 3 Ha Hb Hc).
Defined.

(** ** Corpus builder *)

(** The piece being read is put in front of the first piece found. *)
Lemma split_blank_from_cur cur s :
  ∃ p ps, split_blank_from [] s = p :: ps
          ∧ split_blank_from cur s = (cur ++ p) :: ps.
Proof.
  revert cur. induction s as [|c rest IH]; intros cur.
  - exists [], []. simpl. by rewrite app_nil_r.
  - simpl. destruct rest as [|d rest'].
    + exists [c], []. by split.
    + destruct ((c =? NL) && (d =? NL)).
      * exists [], (split_blank_from [] rest'). by rewrite app_nil_r.
      * destruct (IH [c]) as (p & ps & Hnil & Hc).
        destruct (IH (cur ++ [c])) as (p' & ps' & Hnil' & Hcur).
        rewrite Hnil in Hnil'. injection Hnil' as <- <-.
        exists (c :: p), ps. split; [exact Hc|].
        rewrite Hcur. by rewrite <- app_assoc.
Qed.

Lemma split_blank_first c rest :
  c ≠ NL → ∃ p ps, split_blank_from [] (c :: rest) = (c :: p) :: ps.
Proof.
  intros Hc. simpl. destruct rest as [|d rest']; [by exists [], []|].
  apply N.eqb_neq in Hc. rewrite Hc. simpl.
  destruct (split_blank_from_cur [c] (d :: rest')) as (p & ps & _ & H).
  exists p, ps. exact H.
Qed.

Lemma has_blank_line_cons c p :
  has_blank_line (c :: p) → (c = NL ∧ head p = Some NL) ∨ has_blank_line p.
Proof.
  intros ([|x a] & b & H); simpl in H.
  - injection H as -> ->. by left.
  - injection H as _ ->. right. by exists a, b.
Qed.

Lemma split_blank_no_blank_line n : ∀ s,
  (length s <= n)%nat →
  Forall (fun p => ¬ has_blank_line p) (split_blank_from [] s).
Proof.
  induction n as [|n IH]; intros s Hlen.
  - destruct s; [|simpl in Hlen; lia]. repeat constructor.
    intros ([|? ?] & ? & ?); discriminate.
  - destruct s as [|c rest].
    { repeat constructor. intros ([|? ?] & ? & ?); discriminate. }
    destruct rest as [|d rest'].
    { repeat constructor. intros ([|? [|? ?]] & ? & ?); discriminate. }
    simpl in Hlen.
    assert (Forall (fun p => ¬ has_blank_line p) (split_blank_from [] (d :: rest')))
      as Hrest by (apply IH; simpl; lia).
    change (split_blank_from [] (c :: d :: rest'))
      with (if (c =? NL) && (d =? NL) then [] :: split_blank_from [] rest'
            else split_blank_from ([] ++ [c]) (d :: rest')).
    destruct ((c =? NL) && (d =? NL)) eqn:E.
    + constructor; [intros ([|? ?] & ? & ?); discriminate|].
      apply IH. lia.
    + destruct (split_blank_from_cur ([] ++ [c]) (d :: rest')) as (p & ps & Hnil & ->).
      rewrite Hnil in Hrest. apply Forall_cons in Hrest. destruct Hrest as [Hp Hps].
      constructor; [|exact Hps].
      intros Hblank. apply has_blank_line_cons in Hblank.
      destruct Hblank as [[-> Hhd]|Hblank]; [|by apply Hp].
      assert (d ≠ NL) as Hd.
      { intros ->. rewrite N.eqb_refl in E. discriminate. }
      destruct (split_blank_first d rest' Hd) as (p' & ps' & H').
      rewrite Hnil in H'. injection H' as -> _. simpl in Hhd. congruence.
Qed.

Lemma strip_infix s : ∃ p q, s = p ++ strip s ++ q.
Proof.
  destruct (lstrip_suffix s) as [p Hp].
  destruct (rstrip_prefix (lstrip s)) as [q Hq].
  exists p, q. unfold strip. by rewrite <- Hq.
Qed.

Lemma paragraphs_no_blank_line raw :
  Forall (fun p => ¬ has_blank_line p) (paragraphs raw).
Proof.
  unfold paragraphs. apply Forall_forall. intros t Ht.
  apply list_elem_of_In, in_map_iff in Ht. destruct Ht as (x & <- & Hx).
  apply filter_In in Hx. destruct Hx as [Hx _].
  pose proof (split_blank_no_blank_line (length raw) raw (Nat.le_refl _)) as Hall.
  rewrite Forall_forall in Hall. specialize (Hall x).
  intros (a & b & Hab). apply Hall; [by apply list_elem_of_In|].
  destruct (strip_infix x) as (p & q & Hpq).
  exists (p ++ a), (b ++ q). rewrite Hpq at 1. rewrite Hab.
  by rewrite <- !app_assoc.
Qed.

Lemma lstrip_keeps c s : In c s → is_space c = false → In c (lstrip s).
Proof.
  induction s as [|d s IH]; intros Hin Hc; [destruct Hin|]. simpl.
  destruct (is_space d) eqn:Hd; [|exact Hin].
  destruct Hin as [->|Hin]; [congruence|by apply IH].
Qed.

Lemma strip_keeps c s : In c s → is_space c = false → In c (strip s).
Proof.
  intros Hin Hc. unfold strip, rstrip.
  apply in_rev. rewrite rev_involutive. apply lstrip_keeps; [|exact Hc].
  apply in_rev. rewrite rev_involutive. by apply lstrip_keeps.
Qed.

Lemma lstrip_all_space s : Forall (fun c => is_space c = true) s → lstrip s = [].
Proof. induction 1 as [|c s Hc _ IH]; [reflexivity|]. simpl. by rewrite Hc. Qed.

Lemma strip_all_space s : Forall (fun c => is_space c = true) s → strip s = [].
Proof. intros Hs. unfold strip. by rewrite lstrip_all_space. Qed.

(** The pieces of a split hold characters of the text only. *)
Lemma split_blank_chars (P : N → Prop) n : ∀ s cur,
  (length s <= n)%nat →
  Forall P cur → Forall P s → Forall (Forall P) (split_blank_from cur s).
Proof.
  induction n as [|n IH]; intros s cur Hlen Hcur Hs.
  - destruct s; [|simpl in Hlen; lia]. by repeat constructor.
  - destruct s as [|c rest]; [by repeat constructor|].
    simpl in Hlen. simpl.
    apply Forall_cons in Hs. destruct Hs as [Hc Hrest].
    assert (Forall P (cur ++ [c])) as Hcur'.
    { apply Forall_app. split; [exact Hcur|by repeat constructor]. }
    destruct rest as [|d rest']; [by repeat constructor|].
    destruct ((c =? NL) && (d =? NL)).
    + constructor; [exact Hcur|].
      apply Forall_cons in Hrest. destruct Hrest as [_ Hrest'].
      apply IH; [simpl in Hlen; lia|constructor|exact Hrest'].
    + apply IH; [simpl in *; lia|exact Hcur'|exact Hrest].
Qed.

(** A character other than a newline ends up in some piece. *)
Lemma split_blank_covers c n : ∀ s cur,
  (length s <= n)%nat → c ≠ NL → In c cur ∨ In c s →
  ∃ piece, In piece (split_blank_from cur s) ∧ In c piece.
Proof.
  induction n as [|n IH]; intros s cur Hlen Hc Hin.
  - destruct s; [|simpl in Hlen; lia].
    destruct Hin as [Hin|[]]. exists cur. split; [by left|exact Hin].
  - destruct s as [|x rest].
    { destruct Hin as [Hin|[]]. exists cur. split; [by left|exact Hin]. }
    simpl in Hlen. simpl. destruct rest as [|d rest'].
    { exists (cur ++ [x]). split; [by left|].
      apply in_or_app. destruct Hin as [Hin|[->|[]]]; [by left|right; by left]. }
    destruct ((x =? NL) && (d =? NL)) eqn:E.
    + apply andb_true_iff in E. destruct E as [Ex Ed].
      apply N.eqb_eq in Ex, Ed. subst x d.
      destruct Hin as [Hin|[Heq|[Heq|Hin]]]; try congruence.
      * exists cur. split; [by left|exact Hin].
      * destruct (IH rest' [] ltac:(simpl in Hlen; lia) Hc (or_intror Hin))
          as (piece & Hp & Hcp).
        exists piece. split; [by right|exact Hcp].
    + apply (IH (d :: rest') (cur ++ [x])); [simpl in *; lia|exact Hc|].
      destruct Hin as [Hin|[->|Hin]].
      * left. apply in_or_app. by left.
      * left. apply in_or_app. right. by left.
      * by right.
Qed.

Section CorpusMore.

Variable lower_nonascii : pystr -> N -> pystr -> pystr.
Variable listdir : pystr -> option (list DirEntry).

Abbreviation load_files := (load_files lower_nonascii).
Abbreviation load_doc_chunks := (load_doc_chunks lower_nonascii listdir).
Abbreviation chunks_of_file := (chunks_of_file lower_nonascii).
Abbreviation file_chunks := (file_chunks lower_nonascii).

Lemma load_files_spec files : ∀ acc chunks,
  load_files files acc = inr chunks ↔
  Forall readable files ∧ chunks = acc ++ concat (List.map file_chunks files).
Proof.
  induction files as [|f rest IH]; intros acc chunks; simpl.
  - rewrite app_nil_r. split.
    + intros [= <-]. by split.
    + intros [_ ->]. reflexivity.
  - destruct (read_text f) as [e|raw] eqn:E; simpl.
    + split; [discriminate|]. intros [Hall _].
      apply Forall_cons in Hall. destruct Hall as [[raw Hraw] _]. congruence.
    + rewrite IH. unfold file_chunks. rewrite E. rewrite <- app_assoc.
      split; intros [Hall ->]; split; try reflexivity.
      * constructor; [by exists raw|exact Hall].
      * by apply Forall_cons in Hall as [_ ?].
Qed.

Lemma load_files_error ok f rest e : ∀ acc,
  Forall readable ok → read_text f = inl e →
  load_files (ok ++ f :: rest) acc = inl e.
Proof.
  induction ok as [|g ok IH]; intros acc Hok Hf; simpl.
  - by rewrite Hf.
  - apply Forall_cons in Hok. destruct Hok as [[raw Hraw] Hok].
    rewrite Hraw. simpl. by apply IH.
Qed.

(** X11. No fragment runs across a blank line: the text of a fragment
    never holds two newlines in a row. *)
Theorem fragments_have_no_blank_line (docs_dir : pystr) (chunks : list Chunk) :
  load_doc_chunks docs_dir = inr chunks →
  Forall (fun ch => ¬ has_blank_line (text ch)) chunks.
Proof.
  unfold load_doc_chunks. intros H. apply load_files_spec in H.
  destruct H as [_ ->]. simpl. apply Forall_forall. intros ch Hch.
  apply list_elem_of_In, in_concat in Hch. destruct Hch as (l & Hl & Hch).
  apply in_map_iff in Hl. destruct Hl as (f & <- & _).
  unfold file_chunks in Hch. destruct (read_text f) as [|raw]; [destruct Hch|].
  unfold chunks_of_file in Hch. apply in_map_iff in Hch.
  destruct Hch as (t & <- & Ht). simpl.
  pose proof (paragraphs_no_blank_line raw) as Hall.
  rewrite Forall_forall in Hall. apply Hall. by apply list_elem_of_In.
Qed.

(** X12. The corpus is built file by file: the build returns normally
    exactly when every listed [*.txt] file can be read, and then it is
    the fragments of the first file, then those of the second, and so
    on, in the order the directory lists the files. *)
Theorem load_doc_chunks_in_listing_order (docs_dir : pystr) (chunks : list Chunk) :
  load_doc_chunks docs_dir = inr chunks ↔
  Forall readable (glob_txt listdir docs_dir)
  ∧ chunks = concat (List.map file_chunks (glob_txt listdir docs_dir)).
Proof. unfold load_doc_chunks. apply load_files_spec. Qed.

(** X13. A file that cannot be read stops the build: it raises the
    error of the first listed [*.txt] file whose reading fails, whatever
    the files after it hold. *)
Theorem load_doc_chunks_first_error (docs_dir : pystr) (ok rest : list DirEntry)
    (f : DirEntry) (e : PyExc) :
  glob_txt listdir docs_dir = ok ++ f :: rest →
  Forall readable ok →
  read_text f = inl e →
  load_doc_chunks docs_dir = inl e.
Proof.
  intros Hglob Hok Hf. unfold load_doc_chunks. rewrite Hglob.
  by apply load_files_error.
Qed.

(** X14. The source of every fragment is the name of a file of the
    directory, and that name matches [*.txt]. *)
Theorem fragment_sources (docs_dir : pystr) (chunks : list Chunk) :
  load_doc_chunks docs_dir = inr chunks →
  ∀ ch, In ch chunks →
        ∃ entries f, listdir docs_dir = Some entries ∧ In f entries
                     ∧ source ch = name f ∧ matches_txt (name f) = true.
Proof.
  unfold load_doc_chunks. intros H ch Hch. apply load_files_spec in H.
  destruct H as [_ ->]. simpl in Hch.
  apply in_concat in Hch. destruct Hch as (l & Hl & Hch).
  apply in_map_iff in Hl. destruct Hl as (f & <- & Hf).
  unfold glob_txt in Hf. destruct (listdir docs_dir) as [entries|]; [|destruct Hf].
  apply filter_In in Hf. destruct Hf as [Hin Hmatch].
  exists entries, f. repeat split; try assumption.
  unfold file_chunks in Hch. destruct (read_text f) as [|raw]; [destruct Hch|].
  unfold chunks_of_file in Hch. apply in_map_iff in Hch.
  by destruct Hch as (t & <- & _).
Qed.

(** X15. A file gives no fragment exactly when it holds white space
    only (the empty file too). *)
Theorem chunks_of_file_empty_iff (file_name raw : pystr) :
  chunks_of_file file_name raw = [] ↔ Forall (fun c => is_space c = true) raw.
Proof.
  unfold chunks_of_file, paragraphs. split.
  - intros H. apply Forall_forall. intros c Hc.
    destruct (is_space c) eqn:Hsp; [reflexivity|exfalso].
    assert (c ≠ NL) as Hnl by (intros ->; discriminate).
    destruct (split_blank_covers c (length raw) raw [] (Nat.le_refl _) Hnl
                (or_intror (proj1 (list_elem_of_In _ _) Hc)))
      as (piece & Hpiece & Hcp).
    assert (In (strip piece)
              (List.map strip
                 (List.filter (fun p => nonempty (strip p)) (split_blank raw)))) as Hin.
    { apply in_map. apply filter_In. split; [exact Hpiece|].
      pose proof (strip_keeps c piece Hcp Hsp) as Hk.
      destruct (strip piece); [destruct Hk|reflexivity]. }
    apply (in_map (fun p => mkChunk file_name p (_tokenize lower_nonascii p))) in Hin.
    rewrite H in Hin. destruct Hin.
  - intros Hs.
    pose proof (split_blank_chars _ (length raw) raw [] (Nat.le_refl _)
                  ltac:(constructor) Hs) as Hall.
    fold (split_blank raw) in Hall.
    induction Hall as [|p ps Hp _ IH]; [reflexivity|]. simpl.
    by rewrite (strip_all_space p Hp).
Qed.

(** X16. Building the corpus and then searching it: the score shown for
    a fragment is the number of tokens that the query and the text of
    the fragment have in common. *)
Theorem search_built_corpus_scores (docs_dir query : pystr) (chunks : list Chunk)
    (top_k : Z) (p : Scored) :
  load_doc_chunks docs_dir = inr chunks →
  In p (search_best lower_nonascii query chunks top_k) →
  p.1 = size (_tokenize lower_nonascii query ∩ _tokenize lower_nonascii (text p.2)).
Proof.
  unfold load_doc_chunks. intros Hload Hp.
  apply load_files_ok in Hload; [|constructor].
  apply search_best_in_scored, scored_fragments_positive in Hp.
  destruct Hp as (Hin & -> & _).
  rewrite Forall_forall in Hload.
  destruct (Hload p.2 (proj2 (list_elem_of_In _ _) Hin)) as [Htok _].
  unfold overlap. by rewrite Htok.
Qed.

End CorpusMore.

Lemma fragments_have_no_blank_line_witness :
  ∃ chunks,
    load_doc_chunks Scripted.lower_nonascii Scripted.listdir (lit "docs") = inr chunks
    ∧ length chunks = 2%nat
    ∧ Forall (fun ch => ¬ has_blank_line (text ch)) chunks.
Proof.
  eexists. split; [vm_compute; reflexivity|]. split; [reflexivity|].
  apply (fragments_have_no_blank_line Scripted.lower_nonascii Scripted.listdir (lit "docs")).
  vm_compute. reflexivity.
Defined.

Lemma load_doc_chunks_first_error_witness :
  let files := [mkEntry (lit "journal.txt") (inr Scripted.journal)] in
  let locked := mkEntry (lit "locked.txt") (inl OSError) in
  let later := [mkEntry (lit "later.txt") (inr (lit "never read"))] in
  glob_txt Scripted.listdir_broken (lit "docs") = files ++ locked :: later
  ∧ Forall readable files
  ∧ load_doc_chunks Scripted.lower_nonascii Scripted.listdir_broken (lit "docs")
    = inl OSError.
Proof.
  intros files locked later.
  assert (glob_txt Scripted.listdir_broken (lit "docs") = files ++ locked :: later)
    as Hglob by (vm_compute; reflexivity).
  assert (Forall readable files) as Hok.
  { repeat constructor. by exists Scripted.journal. }
  split; [exact Hglob|]. split; [exact Hok|].
  exact (load_doc_chunks_first_error Scripted.lower_nonascii Scripted.listdir_broken
           (lit "docs") files later locked OSError Hglob Hok eq_refl).
Defined.

Lemma fragment_sources_witness :
  let ch := mkChunk (lit "journal.txt") (lit "Paris museum")
                    {[ lit "paris"; lit "museum" ]} in
  ∃ chunks,
    load_doc_chunks Scripted.lower_nonascii Scripted.listdir (lit "docs") = inr chunks
    ∧ In ch chunks
    ∧ ∃ entries f, Scripted.listdir (lit "docs") = Some entries ∧ In f entries
                   ∧ source ch = name f ∧ matches_txt (name f) = true.
Proof.
  intros ch. eexists. split; [apply load_docs|].
  assert (In ch [mkChunk (lit "journal.txt") (lit "Rome" ++ [NL] ++ lit "2023")
                         {[ lit "rome"; lit "2023" ]}; ch]) as Hin
    by (right; left; reflexivity).
  split; [exact Hin|].
  exact (fragment_sources Scripted.lower_nonascii Scripted.listdir (lit "docs") _
           load_docs ch Hin).
Defined.

Lemma search_built_corpus_scores_witness :
  let q := lit "Paris in 2023" in
  ∃ chunks p,
    load_doc_chunks Scripted.lower_nonascii Scripted.listdir (lit "docs") = inr chunks
    ∧ In p (search_best Scripted.lower_nonascii q chunks 3)
    ∧ p.1 = size (_tokenize Scripted.lower_nonascii q
                  ∩ _tokenize Scripted.lower_nonascii (text p.2)).
Proof.
  intros q. eexists. eexists. split; [apply load_docs|].
  match goal with
  | |- In ?p ?l ∧ _ =>
      assert (In p l) as Hin by (vm_compute; left; reflexivity)
  end.
  split; [exact Hin|].
  exact (search_built_corpus_scores Scripted.lower_nonascii Scripted.listdir
           (lit "docs") q _ 3 _ load_docs Hin).
Defined.

(** ** Router response *)

Lemma through_last_close_app m c :
  ¬ In RBRACE c → through_last_close (m ++ [RBRACE] ++ c) = Some (m ++ [RBRACE]).
Proof.
  intros Hc.
  assert (through_last_close c = None) as Hnone.
  { destruct (through_last_close c) as [x|] eqn:E; [|reflexivity].
    destruct (through_last_close_inv c x E) as (b & c' & -> & Hx & _).
    exfalso. apply Hc. rewrite Hx. apply in_or_app. left.
    apply in_or_app. right. by left. }
  induction m as [|d m IH]; simpl.
  - by rewrite Hnone.
  - simpl in IH. by rewrite IH.
Qed.

Lemma search_braces_app a b c :
  ¬ In LBRACE a → ¬ In RBRACE c →
  search_braces (a ++ (LBRACE :: b ++ [RBRACE]) ++ c) = Some (LBRACE :: b ++ [RBRACE]).
Proof.
  intros Ha Hc. induction a as [|d a IH]; simpl.
  - rewrite <- app_assoc. by rewrite (through_last_close_app b c Hc).
  - destruct (d =? LBRACE) eqn:Hd.
    + apply N.eqb_eq in Hd. exfalso. apply Ha. by left.
    + apply IH. intros Hin. apply Ha. by right.
Qed.

(** X17. The span taken from a router response is greedy: it is found
    exactly when it runs from the first opening brace of the response to
    its last closing brace, so a response with several objects gives one
    span over all of them. *)
Theorem search_braces_first_to_last (raw span : pystr) :
  search_braces raw = Some span ↔
  ∃ a b c, raw = a ++ span ++ c ∧ span = LBRACE :: b ++ [RBRACE]
           ∧ ¬ In LBRACE a ∧ ¬ In RBRACE c.
Proof.
  split; [apply search_braces_inv|].
  intros (a & b & c & -> & -> & Ha & Hc). by apply search_braces_app.
Qed.

Section RouterMore.

Variable json_loads : pystr -> pystr + json.

Abbreviation parse_router_response := (parse_router_response json_loads).

(** X18. Text around the JSON object is ignored: when the object
    decodes, a response with prose before it (without an opening brace)
    and after it (without a closing brace) parses to the same decision
    as the object alone. *)
Theorem parse_router_response_ignores_prose (pre body post : pystr)
    (d : RouterDecision) :
  ¬ In LBRACE pre → ¬ In RBRACE post →
  let span := LBRACE :: body ++ [RBRACE] in
  parse_router_response span = inr d →
  parse_router_response (pre ++ span ++ post) = inr d.
Proof.
  intros Hpre Hpost span. subst span. unfold parse_router_response.
  rewrite (search_braces_app pre body post Hpre Hpost).
  assert (search_braces (LBRACE :: body ++ [RBRACE]) = Some (LBRACE :: body ++ [RBRACE]))
    as Hself.
  { rewrite <- (app_nil_r (LBRACE :: body ++ [RBRACE])) at 1.
    apply (search_braces_app [] body []); intros []. }
  rewrite Hself.
  destruct (json_loads (LBRACE :: body ++ [RBRACE])) as [e|v]; [discriminate|exact id].
Qed.

End RouterMore.

Lemma parse_router_response_ignores_prose_witness :
  let pre := lit "Sure, here it is: " in
  let post := lit " Hope that helps." in
  let body := quoted "action" ++ lit ":" ++ quoted "SEARCH_DOCS" ++ lit ","
              ++ quoted "query" ++ lit ":" ++ quoted "Tokyo trip" in
  let d := mkDecision (JStr SEARCH_DOCS) (JStr (lit "Tokyo trip")) JNull in
  ¬ In LBRACE pre ∧ ¬ In RBRACE post
  ∧ parse_router_response Scripted.json_loads (LBRACE :: body ++ [RBRACE]) = inr d
  ∧ parse_router_response Scripted.json_loads
      (pre ++ (LBRACE :: body ++ [RBRACE]) ++ post) = inr d.
Proof.
  intros pre post body d.
  assert (¬ In LBRACE pre) as Hpre.
  { vm_compute. intros H. repeat (destruct H as [H|H]; [discriminate|]). exact H. }
  assert (¬ In RBRACE post) as Hpost.
  { vm_compute. intros H. repeat (destruct H as [H|H]; [discriminate|]). exact H. }
  assert (parse_router_response Scripted.json_loads (LBRACE :: body ++ [RBRACE]) = inr d)
    as Hparse by (vm_compute; reflexivity).
  split; [exact Hpre|]. split; [exact Hpost|]. split; [exact Hparse|].
  exact (parse_router_response_ignores_prose Scripted.json_loads pre body post d
           Hpre Hpost Hparse).
Defined.

(** ** One turn of the agent *)

Lemma lstrip_slash_all s : Forall (fun c => c = 47) s → lstrip_slash s = [].
Proof. induction 1 as [|c s -> _ IH]; [reflexivity|]. simpl. exact IH. Qed.

Lemma rstrip_slash_snoc b : rstrip_slash (b ++ [47]) = rstrip_slash b.
Proof. unfold rstrip_slash. rewrite rev_app_distr. reflexivity. Qed.

Section TurnMore.

Variable lower_nonascii : pystr -> N -> pystr -> pystr.
Variable json_loads : pystr -> pystr + json.
Variable py_repr : json -> pystr.
Variable exc_str : PyExc -> pystr.
Variable World : Type.
Variable requests_post : Request -> World -> result Response * World.

Abbreviation chat := (chat py_repr World requests_post).
Abbreviation agent_once :=
  (agent_once lower_nonascii json_loads py_repr World requests_post).
Abbreviation main_loop :=
  (main_loop lower_nonascii json_loads py_repr exc_str World requests_post).
Abbreviation is_stop_line := (is_stop_line lower_nonascii).

(** X19. A configuration without an API key fails before anything is
    sent: [chat] raises [KeyError] for ["api_key"] and leaves the world
    and the console as they were, and so does a whole turn. *)
Theorem missing_api_key_sends_nothing (messages : list json)
    (user_text : pystr) (chunks : list Chunk) (config : list (pystr * json))
    (s : Sys World) :
  dict_lookup (lit "api_key") config = None →
  chat messages config s = (inl (KeyError (JStr (lit "api_key"))), s)
  ∧ agent_once user_text chunks config s = (inl (KeyError (JStr (lit "api_key"))), s).
Proof.
  intros Hkey.
  assert (∀ msgs, chat msgs config s = (inl (KeyError (JStr (lit "api_key"))), s))
    as Hchat.
  { intros msgs. unfold chat, bindM at 1, lift at 1, getitem_key. by rewrite Hkey. }
  split; [apply Hchat|].
  unfold agent_once, bindM at 1. by rewrite Hchat.
Qed.

(** X20. A trailing slash on the base URL makes no difference: two
    configurations that differ only by one slash at the end of
    [base_url] make the same call. *)
Theorem chat_base_url_trailing_slash (messages : list json)
    (config1 config2 : list (pystr * json)) (base : pystr) (s : Sys World) :
  dict_lookup (lit "api_key") config1 = dict_lookup (lit "api_key") config2 →
  dict_lookup (lit "model") config1 = dict_lookup (lit "model") config2 →
  dict_lookup (lit "base_url") config1 = Some (JStr base) →
  dict_lookup (lit "base_url") config2 = Some (JStr (base ++ [47])) →
  chat messages config1 s = chat messages config2 s.
Proof.
  intros Hkey Hmodel Hb1 Hb2.
  unfold chat, bindM, lift, getitem_key, dict_get.
  rewrite Hkey, Hmodel, Hb1, Hb2.
  destruct (dict_lookup (lit "api_key") config2); [|reflexivity].
  cbn [as_str]. by rewrite rstrip_slash_snoc.
Qed.

(** X21. A [NO_SEARCH] decision ends the turn with the router's answer,
    or with the text "(no answer)" when the decision has none.  Nothing
    is searched and no second call is made: the world is as the router
    call left it, and only the decision is logged. *)
Theorem direct_answer_makes_no_second_call
    (user_text : pystr) (chunks : list Chunk) (config : list (pystr * json))
    (s s1 : Sys World) (raw span : pystr) (fields : list (pystr * json)) :
  chat (router_messages user_text) config s = (inr (JStr raw), s1) →
  search_braces raw = Some span →
  json_loads span = inr (JObj fields) →
  dict_lookup (lit "action") fields = Some (JStr NO_SEARCH) →
  agent_once user_text chunks config s
  = (inr (dict_get fields (lit "answer") (JStr (lit "(no answer)"))),
     mkSys (world s1)
           (stdout s1 ++ [lit "[router decision] " ++ py_str py_repr (JObj fields)
                          ++ [NL]])).
Proof.
  intros Hchat Hspan Hjson Haction.
  unfold agent_once, bindM at 1. rewrite Hchat.
  unfold lift at 1, as_str at 1, bindM at 1. rewrite Hspan, Hjson.
  unfold bindM at 1, print at 1. unfold bindM at 1, lift at 1.
  unfold dict_get at 1. rewrite Haction.
  change (json_eq_str (JStr NO_SEARCH) NO_SEARCH) with true.
  cbv iota. unfold ret. by rewrite <- !app_assoc.
Qed.

(** X22. A decision whose action is neither [NO_SEARCH] nor
    [SEARCH_DOCS] (or is missing) ends the turn with the message
    "(Router error) Unknown action: ..." as its result.  Nothing is
    raised, nothing is searched and no second call is made. *)
Theorem unknown_action_is_reported
    (user_text : pystr) (chunks : list Chunk) (config : list (pystr * json))
    (s s1 : Sys World) (raw span : pystr) (fields : list (pystr * json)) :
  chat (router_messages user_text) config s = (inr (JStr raw), s1) →
  search_braces raw = Some span →
  json_loads span = inr (JObj fields) →
  dict_get fields (lit "action") JNull ≠ JStr NO_SEARCH →
  dict_get fields (lit "action") JNull ≠ JStr SEARCH_DOCS →
  agent_once user_text chunks config s
  = (inr (JStr (lit "(Router error) Unknown action: " ++ py_str py_repr (JObj fields))),
     mkSys (world s1)
           (stdout s1 ++ [lit "[router decision] " ++ py_str py_repr (JObj fields)
                          ++ [NL]])).
Proof.
  intros Hchat Hspan Hjson Hno Hsearch.
  assert (∀ v t, v ≠ JStr t → json_eq_str v t = false) as Hne.
  { intros v t Hv. destruct v; try reflexivity. simpl.
    apply bool_decide_eq_false_2. congruence. }
  unfold agent_once, bindM at 1. rewrite Hchat.
  unfold lift at 1, as_str at 1, bindM at 1. rewrite Hspan, Hjson.
  unfold bindM at 1, print at 1. unfold bindM at 1, lift at 1.
  rewrite (Hne _ _ Hno), (Hne _ _ Hsearch).
  unfold ret. by rewrite <- !app_assoc.
Qed.

(** X23. The loop of [main] ends in two ways only.  It returns normally
    exactly when some line read is [exit] or [quit] (in any letter case,
    white space around it aside); otherwise it ends with [EOFError] when
    the console has no more lines.  No failure of a turn ends it. *)
Theorem main_loop_ends (inputs : list pystr) (chunks : list Chunk)
    (config : list (pystr * json)) (s : Sys World) :
  ((main_loop inputs chunks config s).1 = inr tt ↔ Exists is_stop_line inputs)
  ∧ ((main_loop inputs chunks config s).1 = inl EOFError ↔
     Forall (fun line => ¬ is_stop_line line) inputs).
Proof.
  revert s. induction inputs as [|line rest IH]; intros s.
  - simpl. split; split; try discriminate; try constructor.
    + intros H. inversion H.
  - simpl. case_bool_decide as Hstop.
    + simpl. split; split; try discriminate; try reflexivity.
      * intros _. by left.
      * intros H. apply Forall_cons in H. destruct H as [H _]. by destruct H.
    + match goal with
      | |- context [main_loop rest chunks config ?s1] =>
          destruct (IH s1) as [IH1 IH2]
      end.
      rewrite IH1, IH2. split; split.
      * intros H. by right.
      * intros H. apply Exists_cons in H. destruct H as [H|H]; [by destruct Hstop|exact H].
      * intros H. by constructor.
      * intros H. by apply Forall_cons in H as [_ ?].
Qed.

(** X24. Lines after the first [exit] or [quit] are never read: they
    change neither the outcome, nor the world, nor the console. *)
Theorem main_loop_stops_reading (before after : list pystr) (stop : pystr)
    (chunks : list Chunk) (config : list (pystr * json)) (s : Sys World) :
  is_stop_line stop →
  main_loop (before ++ stop :: after) chunks config s
  = main_loop (before ++ [stop]) chunks config s.
Proof.
  intros Hstop. revert s. induction before as [|line before IH]; intros s.
  - simpl. unfold is_stop_line in Hstop.
    rewrite !bool_decide_eq_true_2 by exact Hstop. reflexivity.
  - simpl. case_bool_decide; [reflexivity|]. apply IH.
Qed.

End TurnMore.

Lemma missing_api_key_sends_nothing_witness :
  let s := mkSys [Scripted.completion (lit "never sent")] [] in
  dict_lookup (lit "api_key") [(lit "model", JStr (lit "m"))] = None
  ∧ Scripted.agent_once (lit "hello") [] [(lit "model", JStr (lit "m"))] s
    = (inl (KeyError (JStr (lit "api_key"))), s).
Proof.
  intros s. split; [reflexivity|].
  apply (missing_api_key_sends_nothing
           Scripted.lower_nonascii Scripted.json_loads Scripted.py_repr
           Scripted.World Scripted.requests_post [] (lit "hello") []
           [(lit "model", JStr (lit "m"))] s).
  reflexivity.
Defined.

Lemma chat_base_url_trailing_slash_witness :
  let base := lit "https://example.test/v1" in
  let config1 := [(lit "api_key", JStr (lit "k")); (lit "base_url", JStr base)] in
  let config2 := [(lit "api_key", JStr (lit "k")); (lit "base_url", JStr (base ++ [47]))] in
  let s := mkSys [Scripted.completion (lit "hi")] [] in
  dict_lookup (lit "base_url") config2 = Some (JStr (base ++ [47]))
  ∧ chat Scripted.py_repr Scripted.World Scripted.requests_post [] config1 s
    = chat Scripted.py_repr Scripted.World Scripted.requests_post [] config2 s.
Proof.
  intros base config1 config2 s. split; [reflexivity|].
  apply (chat_base_url_trailing_slash Scripted.py_repr Scripted.World
           Scripted.requests_post [] config1 config2 base s); reflexivity.
Defined.

Lemma direct_answer_makes_no_second_call_witness :
  let s := mkSys [Scripted.completion Scripted.no_search_42;
                  Scripted.completion (lit "never asked")] [] in
  dict_lookup (lit "action")
    [(lit "action", JStr NO_SEARCH); (lit "answer", JStr (lit "42"))]
  = Some (JStr NO_SEARCH)
  ∧ Scripted.agent_once (lit "What is 6 x 7?") [Scripted.paris; Scripted.rome]
      Scripted.config s
    = (inr (JStr (lit "42")),
       mkSys [Scripted.completion (lit "never asked")]
             [lit "[router decision] <value>" ++ [NL]]).
Proof.
  intros s. split; [reflexivity|].
  rewrite (direct_answer_makes_no_second_call
             Scripted.lower_nonascii Scripted.json_loads Scripted.py_repr
             Scripted.World Scripted.requests_post
             (lit "What is 6 x 7?") [Scripted.paris; Scripted.rome] Scripted.config s
             (mkSys [Scripted.completion (lit "never asked")] [])
             Scripted.no_search_42 Scripted.no_search_42
             [(lit "action", JStr NO_SEARCH); (lit "answer", JStr (lit "42"))]).
  - vm_compute. reflexivity.
  - vm_compute. reflexivity.
  - vm_compute. reflexivity.
  - vm_compute. reflexivity.
  - reflexivity.
Defined.

Lemma unknown_action_is_reported_witness :
  let s := mkSys [Scripted.completion Scripted.action_dance;
                  Scripted.completion (lit "never asked")] [] in
  let fields := [(lit "action", JStr (lit "DANCE"))] in
  dict_get fields (lit "action") JNull ≠ JStr NO_SEARCH
  ∧ dict_get fields (lit "action") JNull ≠ JStr SEARCH_DOCS
  ∧ agent_once Scripted.lower_nonascii Scripted.json_loads_more Scripted.py_repr
      Scripted.World Scripted.requests_post
      (lit "Shall we?") [Scripted.paris; Scripted.rome] Scripted.config s
    = (inr (JStr (lit "(Router error) Unknown action: <value>")),
       mkSys [Scripted.completion (lit "never asked")]
             [lit "[router decision] <value>" ++ [NL]]).
Proof.
  intros s fields.
  assert (dict_get fields (lit "action") JNull ≠ JStr NO_SEARCH) as Hno
    by (vm_compute; discriminate).
  assert (dict_get fields (lit "action") JNull ≠ JStr SEARCH_DOCS) as Hsearch
    by (vm_compute; discriminate).
  split; [exact Hno|]. split; [exact Hsearch|].
  rewrite (unknown_action_is_reported
             Scripted.lower_nonascii Scripted.json_loads_more Scripted.py_repr
             Scripted.World Scripted.requests_post
             (lit "Shall we?") [Scripted.paris; Scripted.rome] Scripted.config s
             (mkSys [Scripted.completion (lit "never asked")] [])
             Scripted.action_dance Scripted.action_dance fields).
  - vm_compute. reflexivity.
  - vm_compute. reflexivity.
  - vm_compute. reflexivity.
  - vm_compute. reflexivity.
  - exact Hno.
  - exact Hsearch.
Defined.

Lemma main_loop_stops_reading_witness :
  let s := mkSys [inl Timeout] [] in
  is_stop_line Scripted.lower_nonascii (lit "  QUIT ")
  ∧ Scripted.main_loop ([lit "train to rome"] ++ lit "  QUIT " :: [lit "not read"])
      [Scripted.rome] Scripted.config s
    = Scripted.main_loop ([lit "train to rome"] ++ [lit "  QUIT "])
        [Scripted.rome] Scripted.config s.
Proof.
  intros s.
  assert (is_stop_line Scripted.lower_nonascii (lit "  QUIT ")) as Hstop.
  { unfold is_stop_line.
    replace (lower Scripted.lower_nonascii (strip (lit "  QUIT "))) with (lit "quit")
      by (vm_compute; reflexivity).
    right. left. }
  split; [exact Hstop|].
  exact (main_loop_stops_reading
           Scripted.lower_nonascii Scripted.json_loads Scripted.py_repr
           Scripted.exc_str Scripted.World Scripted.requests_post
           [lit "train to rome"] [lit "not read"] (lit "  QUIT ")
           [Scripted.rome] Scripted.config s Hstop).
Defined.

Lemma chat_post_raises_witness :
  let s := mkSys [inl Timeout; Scripted.completion (lit "later")] [] in
  (∀ rq, Scripted.requests_post rq (world s)
         = (inl Timeout, [Scripted.completion (lit "later")]))
  ∧ chat Scripted.py_repr Scripted.World Scripted.requests_post [] Scripted.config s
    = (inl Timeout, mkSys [Scripted.completion (lit "later")] []).
Proof.
  intros s.
  assert (∀ rq, Scripted.requests_post rq (world s)
                = (inl Timeout, [Scripted.completion (lit "later")])) as Hpost
    by (intros rq; reflexivity).
  split; [exact Hpost|].
  exact (chat_post_raises Scripted.py_repr Scripted.World Scripted.requests_post
           [] Scripted.config s (JStr (lit "sk-test")) (lit "https://api.openai.com/v1")
           Timeout [Scripted.completion (lit "later")] eq_refl eq_refl Hpost).
Defined.

Lemma chat_http_error_witness :
  let r := mkResponse 503 (inr (JObj [])) in
  let s := mkSys [inr r] [] in
  (400 <= status_code r < 600)%Z
  ∧ chat Scripted.py_repr Scripted.World Scripted.requests_post [] Scripted.config s
    = (inl (HTTPError 503), mkSys [] []).
Proof.
  intros r s.
  assert (400 <= status_code r < 600)%Z as Hstatus by (simpl; lia).
  split; [exact Hstatus|].
  exact (chat_http_error Scripted.py_repr Scripted.World Scripted.requests_post
           [] Scripted.config s (JStr (lit "sk-test")) (lit "https://api.openai.com/v1")
           r [] eq_refl eq_refl (fun rq => eq_refl) Hstatus).
Defined.

Lemma agent_once_router_errors_witness :
  let raw := lit "I think {search" in
  let s := mkSys [Scripted.completion raw; Scripted.completion (lit "never asked")] [] in
  let s1 := mkSys [Scripted.completion (lit "never asked")] [] in
  search_braces raw = None
  ∧ Scripted.agent_once (lit "hello") [Scripted.rome] Scripted.config s
    = (inr (JStr (lit "(Router error) Model did not return JSON:" ++ [NL] ++ raw)), s1).
Proof.
  intros raw s s1.
  assert (search_braces raw = None) as Hnone by (vm_compute; reflexivity).
  split; [exact Hnone|].
  destruct (agent_once_router_errors
              Scripted.lower_nonascii Scripted.json_loads Scripted.py_repr
              Scripted.World Scripted.requests_post
              (lit "hello") [Scripted.rome] Scripted.config s raw s1)
    as [Hformat _].
  - vm_compute. reflexivity.
  - exact (Hformat Hnone).
Defined.
